(** * Pokedex catalog viewer (pokeapi.js): model and verified properties

    A shallow embedding of the paging controller of [src/pokeapi.js]:
    the detail cache, the soft-failing detail fetch, the bounded worker
    pool, the three query modes with their pagination, and the sort step.

    Conventions of the embedding.
    - A JavaScript string is the sequence of its code units; the model
      covers code units below 256, which is what [Ascii.ascii] holds.
    - Integer-valued JavaScript numbers are [Z] (ids) or [nat] (counters
      that only grow from 0: offset, limit, cursor, active).  An id is
      printed as its decimal digits, which is what [String] does on the
      safe integers; what is proved of a printed id is proved for those.
    - [await] points are where the environment acts.  A request either
      yields a parsed body or makes [fetchJSON] throw; the latter is the
      answer [None].
    - The pool and the page rounds take the body of a detail request to
      have the shape the API documents ([Detail]).  [fetchDetailSafely]
      is also modelled on bodies of any shape ([Body]), where its [try]
      can fail after the cache was written.
    - Page rounds are modelled one at a time (no two rounds overlap). *)

From Stdlib Require Import Ascii String ZArith Lia.
From stdpp Require Import base option list gmap strings pretty sorting.

(* ================================================================== *)
(** ** JavaScript strings *)
(* ================================================================== *)

Module JsString.

(** WhiteSpace and LineTerminator code units below 256:
    TAB, LF, VT, FF, CR, SP and NBSP. *)
Definition isWhiteSpace (c : ascii) : bool :=
  let n := N_of_ascii c in
  ((9 <=? n) && (n <=? 13) || (n =? 32) || (n =? 160))%N.

(** Upper-case code units below 256: A-Z, and U+00C0-U+00DE but for the
    multiplication sign U+00D7.  Each maps 32 places up. *)
Definition isUpper (c : ascii) : bool :=
  let n := N_of_ascii c in
  ((65 <=? n) && (n <=? 90) || (192 <=? n) && (n <=? 222) && negb (n =? 215))%N.

Definition toLowerChar (c : ascii) : ascii :=
  if isUpper c then ascii_of_N (N_of_ascii c + 32) else c.

(** [String.prototype.toLowerCase] *)
Fixpoint toLowerCase (s : string) : string :=
  match s with
  | EmptyString => EmptyString
  | String c s' => String (toLowerChar c) (toLowerCase s')
  end.

Fixpoint trimStart (s : string) : string :=
  match s with
  | EmptyString => EmptyString
  | String c s' => if isWhiteSpace c then trimStart s' else s
  end.

Fixpoint trimEnd (s : string) : string :=
  match s with
  | EmptyString => EmptyString
  | String c s' =>
      match trimEnd s' with
      | EmptyString => if isWhiteSpace c then EmptyString else String c EmptyString
      | t => String c t
      end
  end.

(** [String.prototype.trim] *)
Definition trim (s : string) : string := trimEnd (trimStart s).

(** ToBoolean on a string: only the empty string is falsy. *)
Definition truthy (s : string) : bool :=
  match s with EmptyString => false | String _ _ => true end.

(** [s || dflt] on strings *)
Definition or_else (s dflt : string) : string := if truthy s then s else dflt.

(** [Number.isSafeInteger] on an integer: at most 2^53 - 1 in size. *)
Definition isSafeInteger (n : Z) : bool := (Z.abs n <=? 9007199254740991)%Z.

(** [String(n)] for a safe integer [n]: its decimal digits, after a minus
    sign if it is negative.  Beyond the safe integers [String] prints
    otherwise (the shortest digits that read back as the same number, and
    exponent notation from 10^21 on), so this is [String] only where
    [isSafeInteger] holds. *)
Definition ofNumber (n : Z) : string := pretty n.

Definition allChars (P : ascii → bool) (s : string) : bool :=
  forallb P (list_ascii_of_string s).

Definition dquote : string := String "034"%char EmptyString.

(** A string that is empty or starts with a non-blank. *)
Definition headed (s : string) : Prop :=
  match s with
  | EmptyString => True
  | String c _ => isWhiteSpace c = false
  end.


End JsString.

(* ================================================================== *)
(** ** Data model *)
(* ================================================================== *)

(** What [GET /pokemon/{name-or-id}] yields, as far as the controller reads
    it: [data.id], [data.name] and the [t.type.name] of [data.types].
    Abilities, stats and sprites are only read by the card template.  A
    body is taken to be an object of this shape, as the API documents it;
    the name is whatever string the API sends. *)
Record Detail := mkDetail {
  id : Z;
  name : string;
  types : list string;
}.

(** A [{name, url}] entry of a listing or of a type's member list. *)
Record NamedRef := mkRef {
  ref_name : string;
  ref_url : string;
}.

(** Body of [GET /pokemon?limit=&offset=]; [results] may be missing. *)
Record ListJSON := mkListJSON { list_results : option (list NamedRef) }.

(** Body of [GET /type/{name}]: the [p.pokemon] of each entry of
    [data.pokemon]; the field may be missing. *)
Record TypeJSON := mkTypeJSON { type_pokemon : option (list NamedRef) }.

Inductive Request :=
| ReqList (lim off : nat)      (* API_BASE/pokemon?limit=lim&offset=off *)
| ReqType (typeName : string)  (* API_BASE/type/typeName *)
| ReqDetail (key : string).    (* API_BASE/pokemon/key *)

Definition is_ReqType (r : Request) : bool :=
  match r with ReqType _ => true | _ => false end.

Definition PAGE_LIMIT : nat := 24.
Definition CONCURRENCY : nat := 12.

Inductive Mode := list_mode | type_mode | search_mode.

(** The [state] object. *)
Record State := mkState {
  mode : Mode;
  offset : nat;
  limit : nat;
  hasMore : bool;
  currentQ : string;
  currentType : string;
  currentSort : string;
  typeCatalog : list NamedRef;
  typeCursor : nat;
}.

Definition initial_state : State :=
  mkState list_mode 0 PAGE_LIMIT true "" "" "id-asc" [] 0.

(** The [cache] Map. *)
Abbreviation Cache := (gmap string Detail).

(* ================================================================== *)
(** ** Single detail fetch: [fetchDetailSafely] *)
(* ================================================================== *)

(** [String(nameOrId).toLowerCase().trim()] *)
Definition cacheKey (nameOrId : string) : string :=
  JsString.trim (JsString.toLowerCase nameOrId).

(** The three [cache.set] calls that follow a successful [fetchJSON]. *)
Definition cacheStore (key : string) (data : Detail) (cache : Cache) : Cache :=
  <[JsString.toLowerCase (name data) := data]>
    (<[JsString.ofNumber (id data) := data]>
      (<[key := data]> cache)).

(** The part of [fetchDetailSafely] after the [await]: [answer] is what
    [fetchJSON] produced, [None] when it threw.  A [Detail] has an id and
    a name that is a string, so none of the three [cache.set] statements
    throws here; [fetchDetailSafely_settle_body] below is the same code on
    a body that need not have that shape. *)
Definition fetchDetailSafely_settle
    (key : string) (answer : option Detail) (cache : Cache)
  : option Detail * Cache :=
  match answer with
  | Some data => (Some data, cacheStore key data cache)
  | None => (None, cache)
  end.

(** The whole call, awaited: the value returned ([None] is JavaScript's
    [null]), the cache afterwards and the requests issued.  [answer] is
    consulted only when the cache misses. *)
Definition fetchDetailSafely
    (answer : option Detail) (nameOrId : string) (cache : Cache)
  : option Detail * Cache * list Request :=
  let key := cacheKey nameOrId in
  match cache !! key with
  | Some d => (Some d, cache, [])
  | None =>
      let '(d, cache') := fetchDetailSafely_settle key answer cache in
      (d, cache', [ReqDetail key])
  end.

(* ================================================================== *)
(** ** [fetchDetailSafely] on a body of any shape *)
(* ================================================================== *)

(** What [fetchJSON] can yield for a detail request when the body need
    not be a detail: the JSON text [null], or an object.  [obj_id] is
    [data.id], an integer when the object has one and [None] when it has
    none.  [obj_name] is [data.name] when that is a string and [None] when
    it is missing or anything else, in which case
    [data.name.toLowerCase()] throws. *)
Record Object := mkObject {
  obj_id : option Z;
  obj_name : option string;
  obj_types : list string;
}.

Inductive Body :=
| JsonNull
| JsonObject (o : Object).

(** The [cache] Map when it may hold any body. *)
Abbreviation BodyCache := (gmap string Body).

(** A detail as a body. *)
Definition bodyOf (d : Detail) : Body :=
  JsonObject (mkObject (Some (id d)) (Some (name d)) (types d)).

(** [String(data.id)]; a missing id is [undefined]. *)
Definition printedId (o : Object) : string :=
  match obj_id o with
  | Some n => JsString.ofNumber n
  | None => "undefined"
  end.


(** Lines 187-193, after the [await]: the value returned ([JsonNull] is
    [null]) and the cache afterwards.  The three [cache.set] statements
    run inside the [try], so a statement that throws leaves in the cache
    what the statements before it wrote: [data.id] throws when [data] is
    [null], and [data.name.toLowerCase()] when the name is not a string. *)
Definition fetchDetailSafely_settle_body
    (key : string) (answer : option Body) (cache : BodyCache)
  : Body * BodyCache :=
  match answer with
  | None => (JsonNull, cache)
  | Some data =>
      let cache1 := <[key := data]> cache in
      match data with
      | JsonNull => (JsonNull, cache1)
      | JsonObject o =>
          let cache2 := <[printedId o := data]> cache1 in
          match obj_name o with
          | None => (JsonNull, cache2)
          | Some nm => (data, <[JsString.toLowerCase nm := data]> cache2)
          end
      end
  end.

(** The whole call, awaited.  On a hit the cached value is returned as it
    is, a cached [null] included. *)
Definition fetchDetailSafely_body
    (answer : option Body) (nameOrId : string) (cache : BodyCache)
  : Body * BodyCache * list Request :=
  let key := cacheKey nameOrId in
  match cache !! key with
  | Some v => (v, cache, [])
  | None =>
      let '(v, cache') := fetchDetailSafely_settle_body key answer cache in
      (v, cache', [ReqDetail key])
  end.

(* ================================================================== *)
(** ** The worker pool: [fetchManyDetails] *)
(* ================================================================== *)

Module Pool.

(** Where a spawned worker (the async arrow of the [while] body) waits. *)
Inductive Phase :=
| Awaiting (key : string)        (* its request is outstanding *)
| Settled (d : option Detail).   (* fetchDetailSafely returned [d];
                                    the worker has not resumed yet *)

Record Task := mkTask { t_name : string; t_phase : Phase }.

(** The closure of one [fetchManyDetails] call, together with the cache
    it shares with everything else.  [sent] and [returned] are history
    variables: the detail requests issued so far, and what each finished
    [fetchDetailSafely] call returned, by identifier. *)
Record St := mkSt {
  queue : list string;
  results : list Detail;
  active : nat;
  tasks : list Task;
  cache : Cache;
  resolved : option (list Detail);
  sent : list Request;
  returned : list (string * option Detail);
}.

(** One pass of the [while] body: [queue.shift()], [active++], and the
    worker run up to its first suspension. *)
Definition start (nm : string) (p : St) : St :=
  let key := cacheKey nm in
  match cache p !! key with
  | Some d =>
      mkSt (queue p) (results p) (S (active p))
           (tasks p ++ [mkTask nm (Settled (Some d))])
           (cache p) (resolved p) (sent p)
           (returned p ++ [(nm, Some d)])
  | None =>
      mkSt (queue p) (results p) (S (active p))
           (tasks p ++ [mkTask nm (Awaiting key)])
           (cache p) (resolved p) (sent p ++ [ReqDetail key])
           (returned p)
  end.

Definition set_queue (q : list string) (p : St) : St :=
  mkSt q (results p) (active p) (tasks p) (cache p) (resolved p)
       (sent p) (returned p).

(** [while (active < CONCURRENCY && queue.length > 0)] *)
Fixpoint spawn (q : list string) (p : St) : St :=
  match q with
  | [] => set_queue [] p
  | nm :: q' =>
      if (active p <? CONCURRENCY)%nat then spawn q' (start nm p)
      else set_queue q p
  end.

(** The [next] closure. *)
Definition next (p : St) : St :=
  match queue p, active p with
  | [], 0 =>
      mkSt (queue p) (results p) (active p) (tasks p) (cache p)
           (Some (results p)) (sent p) (returned p)
  | _, _ => spawn (queue p) p
  end.

(** [fetchManyDetails(names)] up to the point where it hands back its
    promise. *)
Definition fetchManyDetails (names : list string) (c : Cache) : St :=
  next (mkSt names [] 0 [] c None [] []).

(** What can happen next: the answer to the request of the [i]-th pending
    worker arrives, or the [i]-th pending worker, whose
    [fetchDetailSafely] has returned, resumes. *)
Inductive Event :=
| Answer (i : nat) (r : option Detail)
| Resume (i : nat).

Definition step (p : St) (e : Event) : option St :=
  match e with
  | Answer i r =>
      match tasks p !! i with
      | Some (mkTask nm (Awaiting key)) =>
          let settled := fetchDetailSafely_settle key r (cache p) in
          Some (mkSt (queue p) (results p) (active p)
                     (<[i := mkTask nm (Settled settled.1)]> (tasks p))
                     settled.2 (resolved p) (sent p)
                     (returned p ++ [(nm, settled.1)]))
      | _ => None
      end
  | Resume i =>
      match tasks p !! i with
      | Some (mkTask nm (Settled d)) =>
          (* if (d) results.push(d);  finally { active--; next(); } *)
          let res := match d with
                     | Some x => results p ++ [x]
                     | None => results p
                     end in
          Some (next (mkSt (queue p) res (pred (active p))
                           (delete i (tasks p))
                           (cache p) (resolved p) (sent p) (returned p)))
      | _ => None
      end
  end.

Fixpoint run (p : St) (evs : list Event) : option St :=
  match evs with
  | [] => Some p
  | e :: evs' =>
      match step p e with
      | Some p' => run p' evs'
      | None => None
      end
  end.

(** The details that the finished [fetchDetailSafely] calls returned. *)
Definition successes (p : St) : list Detail := omap snd (returned p).

(** Identifiers whose [fetchDetailSafely] call is still outstanding. *)
Definition awaiting_names (ts : list Task) : list string :=
  omap (λ t, match t_phase t with
             | Awaiting _ => Some (t_name t)
             | Settled _ => None
             end) ts.

(** Details that returned workers have yet to push. *)
Definition unpushed (ts : list Task) : list Detail :=
  omap (λ t, match t_phase t with
             | Settled d => d
             | Awaiting _ => None
             end) ts.

Definition weight (t : Task) : nat :=
  match t_phase t with Awaiting _ => 2 | Settled _ => 1 end.

Definition pending (p : St) : nat :=
  match resolved p with None => 1 | Some _ => 0 end.

(** A bound on the events left before the promise resolves. *)
Definition fuel (p : St) : nat :=
  (2 * length (queue p) + sum_list_with weight (tasks p) + pending p)%nat.

(** A schedule that always serves the oldest pending worker and takes
    the answers from [server]. *)
Definition oldest (server : string → option Detail) (p : St) : option Event :=
  match tasks p with
  | [] => None
  | mkTask _ (Awaiting key) :: _ => Some (Answer 0 (server key))
  | mkTask _ (Settled _) :: _ => Some (Resume 0)
  end.

Fixpoint drive (server : string → option Detail) (n : nat) (p : St)
  : list Event :=
  match n with
  | 0 => []
  | S n' =>
      match oldest server p with
      | None => []
      | Some e =>
          match step p e with
          | Some p' => e :: drive server n' p'
          | None => []
          end
      end
  end.

Definition reachable (names : list string) (c : Cache) (p : St) : Prop :=
  ∃ evs, run (fetchManyDetails names c) evs = Some p.

Record Inv (names : list string) (p : St) : Prop := mkInv {
  inv_active : active p = length (tasks p);
  inv_bound : (active p ≤ CONCURRENCY)%nat;
  inv_full : queue p ≠ [] → active p = CONCURRENCY;
  inv_names :
    names ≡ₚ (returned p).*1 ++ awaiting_names (tasks p) ++ queue p;
  inv_results : results p ++ unpushed (tasks p) ≡ₚ successes p;
  inv_sent : Forall (λ r, is_ReqType r = false) (sent p);
  inv_resolved :
    match resolved p with
    | Some r => r = results p ∧ queue p = [] ∧ tasks p = []
    | None => queue p ≠ [] ∨ tasks p ≠ []
    end;
}.

End Pool.


(* ================================================================== *)
(** ** Arrays and [sortPokemons] *)
(* ================================================================== *)

(** [Array.prototype.sort(cmp)] is stable, and for a consistent comparator
    its result is the one stable ordering of the input; straight insertion
    computes it.  [cmp a b < 0] puts [a] first. *)
Fixpoint insert_by {A} (cmp : A → A → Z) (x : A) (l : list A) : list A :=
  match l with
  | [] => [x]
  | y :: l' => if (cmp y x <? 0)%Z then y :: insert_by cmp x l' else x :: l
  end.

Definition Array_sort {A} (cmp : A → A → Z) (l : list A) : list A :=
  foldr (insert_by cmp) [] l.

(** What [sort] asks of its comparator: the sign flips when the arguments
    swap, and "not after" is transitive. *)
Record Consistent {A} (cmp : A → A → Z) : Prop := mkConsistent {
  consistent_swap : ∀ a b, (cmp a b < 0 ↔ 0 < cmp b a)%Z;
  consistent_trans : ∀ a b c, (cmp a b ≤ 0 → cmp b c ≤ 0 → cmp a c ≤ 0)%Z;
}.

(** "[a] is not after [b]" *)
Definition notAfter {A} (cmp : A → A → Z) (a b : A) : Prop := (cmp a b ≤ 0)%Z.

(** Arrays live in a heap, so that a copy and its original are told apart. *)
Abbreviation Heap := (gmap nat (list Detail)).

(** [[...arr]]: a new array holding the elements of [arr]. *)
Definition spread (arr : nat) (h : Heap) : nat * Heap :=
  let out := fresh (dom h) in
  (out, <[out := default [] (h !! arr)]> h).

(** [out.sort(cmp)]: sorts the array at [out] in place. *)
Definition sort_in_place (cmp : Detail → Detail → Z) (out : nat) (h : Heap)
  : Heap :=
  alter (Array_sort cmp) out h.

(** How an awaited call ends. *)
Inductive Outcome (A : Type) := Returned (a : A) | Thrown.
Arguments Returned {A} a.
Arguments Thrown {A}.

Section Controller.

(** [String.prototype.localeCompare]: negative, zero or positive.  Which
    order it implements depends on the locale, so it is a parameter; the
    language requires of it that it be a consistent comparator. *)
Variable localeCompare : string → string → Z.

Definition by_id_asc (a b : Detail) : Z := id a - id b.
Definition by_id_desc (a b : Detail) : Z := id b - id a.
Definition by_name_asc (a b : Detail) : Z := localeCompare (name a) (name b).
Definition by_name_desc (a b : Detail) : Z := localeCompare (name b) (name a).

(** The comparator that the [switch] selects, if any. *)
Definition comparator (sortBy : string) : option (Detail → Detail → Z) :=
  if String.eqb sortBy "id-asc" then Some by_id_asc
  else if String.eqb sortBy "id-desc" then Some by_id_desc
  else if String.eqb sortBy "name-asc" then Some by_name_asc
  else if String.eqb sortBy "name-desc" then Some by_name_desc
  else None.

(** [sortPokemons(arr, sortBy)]: the array returned and the heap after. *)
Definition sortPokemons (arr : nat) (sortBy : string) (h : Heap) : nat * Heap :=
  let '(out, h1) := spread arr h in
  match comparator sortBy with
  | Some cmp => (out, sort_in_place cmp out h1)
  | None => (out, h1)
  end.

(** The call [batch = sortPokemons(batch, sortBy)] on a batch held in an
    array of its own: the elements of the array that comes back. *)
Definition sortBatch (batch : list Detail) (sortBy : string) : list Detail :=
  let '(out, h) := sortPokemons 0 sortBy {[0 := batch]} in
  default [] (h !! out).

(* ================================================================== *)
(** ** The page: controls, grid, notices *)
(* ================================================================== *)

Inductive Node := Skeleton | Card (d : Detail) | EmptyState.

Inductive ToastKind := toast_error | toast_info.

(** The parts of the document the controller reads and writes.  [toasts]
    lists the notices shown so far (their removal after 3.5 s is not
    modelled). *)
Record Dom := mkDom {
  q_value : string;
  typeFilter_value : string;
  sortBy_value : string;
  grid : list Node;
  aria_busy : bool;
  btnMore_hidden : bool;
  toasts : list (ToastKind * string);
}.

(** Everything a page round can touch; [requests] logs the requests sent. *)
Record World := mkWorld {
  state : State;
  store : Cache;
  doc : Dom;
  requests : list Request;
}.

Definition with_state (f : State → State) (w : World) : World :=
  mkWorld (f (state w)) (store w) (doc w) (requests w).
Definition with_dom (f : Dom → Dom) (w : World) : World :=
  mkWorld (state w) (store w) (f (doc w)) (requests w).
Definition send (r : Request) (w : World) : World :=
  mkWorld (state w) (store w) (doc w) (requests w ++ [r]).

Definition set_grid (g : list Node) (d : Dom) : Dom :=
  mkDom (q_value d) (typeFilter_value d) (sortBy_value d) g
        (aria_busy d) (btnMore_hidden d) (toasts d).

Definition is_skeleton (n : Node) : bool :=
  match n with Skeleton => true | _ => false end.
Definition is_card (n : Node) : bool :=
  match n with Card _ => true | _ => false end.

Definition setBusy (isBusy : bool) : World → World :=
  with_dom (λ d, mkDom (q_value d) (typeFilter_value d) (sortBy_value d)
                       (grid d) isBusy (btnMore_hidden d) (toasts d)).
Definition renderSkeletons (n : nat) : World → World :=
  with_dom (λ d, set_grid (grid d ++ replicate n Skeleton) d).
Definition clearSkeletons : World → World :=
  with_dom (λ d, set_grid (filter (λ n, is_skeleton n = false) (grid d)) d).
Definition renderEmptyState : World → World :=
  with_dom (λ d, set_grid (grid d ++ [EmptyState]) d).
Definition renderCards (pokemons : list Detail) : World → World :=
  with_dom (λ d, set_grid (grid d ++ (Card <$> pokemons)) d).
Definition clearGrid : World → World :=
  with_dom (set_grid []).
Definition updateLoadMoreVisibility (w : World) : World :=
  with_dom (λ d, mkDom (q_value d) (typeFilter_value d) (sortBy_value d)
                       (grid d) (aria_busy d) (negb (hasMore (state w)))
                       (toasts d)) w.
Definition toast (msg : string) (kind : ToastKind) : World → World :=
  with_dom (λ d, mkDom (q_value d) (typeFilter_value d) (sortBy_value d)
                       (grid d) (aria_busy d) (btnMore_hidden d)
                       (toasts d ++ [(kind, msg)])).
Definition showError (msg : string) : World → World := toast msg toast_error.
Definition showInfo (msg : string) : World → World := toast msg toast_info.

Definition cards (w : World) : nat :=
  length (filter (λ n, is_card n = true) (grid (doc w))).
Definition is_info (t : ToastKind * string) : bool :=
  match t.1 with toast_info => true | toast_error => false end.
Definition is_error (t : ToastKind * string) : bool :=
  match t.1 with toast_error => true | toast_info => false end.

(* ================================================================== *)
(** ** Page rounds *)
(* ================================================================== *)

(** What the environment does during one round: the answer to the listing
    request, to the type request and to the search request (each used only
    if the round sends that request; [None] makes [fetchJSON] throw), and
    the course of the worker pool. *)
Record Env := mkEnv {
  listAnswer : option ListJSON;
  typeAnswer : option TypeJSON;
  detailAnswer : option Detail;
  poolEvents : list Pool.Event;
}.

(** [await fetchManyDetails(names)].  [None]: on this course of events the
    promise does not resolve, or the course is not one of the pool. *)
Definition awaitManyDetails
    (evs : list Pool.Event) (names : list string) (w : World)
  : option (list Detail * World) :=
  match Pool.run (Pool.fetchManyDetails names (store w)) evs with
  | Some p =>
      match Pool.resolved p with
      | Some batch =>
          Some (batch, mkWorld (state w) (Pool.cache p) (doc w)
                               (requests w ++ Pool.sent p))
      | None => None
      end
  | None => None
  end.

Definition fetchListPage (env : Env) (off lim : nat) (w : World)
  : option (Outcome (list Detail) * World) :=
  let w1 := send (ReqList lim off) w in
  match listAnswer env with
  | None => Some (Thrown, w1)
  | Some body =>
      let names := ref_name <$> default [] (list_results body) in
      match awaitManyDetails (poolEvents env) names w1 with
      | Some (batch, w2) => Some (Returned batch, w2)
      | None => None
      end
  end.

Definition fetchTypeCatalog (env : Env) (typeName : string) (w : World)
  : Outcome (list NamedRef) * World :=
  let w1 := send (ReqType typeName) w in
  match typeAnswer env with
  | None => (Thrown, w1)
  | Some data =>
      (Returned ((λ p, mkRef (ref_name p) (ref_url p))
                   <$> default [] (type_pokemon data)), w1)
  end.

Definition set_offset (n : nat) (s : State) : State :=
  mkState (mode s) n (limit s) (hasMore s) (currentQ s) (currentType s)
          (currentSort s) (typeCatalog s) (typeCursor s).
Definition set_hasMore (b : bool) (s : State) : State :=
  mkState (mode s) (offset s) (limit s) b (currentQ s) (currentType s)
          (currentSort s) (typeCatalog s) (typeCursor s).
Definition set_typeCatalog (c : list NamedRef) (s : State) : State :=
  mkState (mode s) (offset s) (limit s) (hasMore s) (currentQ s)
          (currentType s) (currentSort s) c (typeCursor s).
Definition set_typeCursor (n : nat) (s : State) : State :=
  mkState (mode s) (offset s) (limit s) (hasMore s) (currentQ s)
          (currentType s) (currentSort s) (typeCatalog s) n.

(** [typeCatalog.slice(typeCursor, typeCursor + limit)] *)
Definition catalogSlice (s : State) : list NamedRef :=
  take (limit s) (drop (typeCursor s) (typeCatalog s)).

Definition notOfType (q ty : string) : string :=
  JsString.dquote +:+ q +:+ JsString.dquote +:+ " is not of type "
  +:+ JsString.dquote +:+ ty +:+ JsString.dquote +:+ ".".

(** The three branches of [loadMorePage] that compute [batch]. *)
Definition listRound (env : Env) (w : World)
  : option (Outcome (list Detail) * World) :=
  match fetchListPage env (offset (state w)) (limit (state w)) w with
  | None => None
  | Some (Thrown, w1) => Some (Thrown, w1)
  | Some (Returned batch, w1) =>
      let w2 := with_state (λ s, set_offset (offset s + limit s) s) w1 in
      let w3 := with_state
                  (λ s, set_hasMore (length batch =? limit s)%nat s) w2 in
      Some (Returned batch, w3)
  end.

(** Lines 117-119: the next slice of the stored catalog, the cursor moved
    past it, and [hasMore] set from the new cursor. *)
Definition takeSlice (s : State) : list NamedRef * State :=
  let slice := catalogSlice s in
  let s1 := set_typeCursor (typeCursor s + length slice) s in
  (slice, set_hasMore (typeCursor s1 <? length (typeCatalog s1))%nat s1).

Definition typeRound (env : Env) (w : World)
  : option (Outcome (list Detail) * World) :=
  let fetched :=
    if (length (typeCatalog (state w)) =? 0)%nat then
      match fetchTypeCatalog env (currentType (state w)) w with
      | (Thrown, w1) => (Thrown, w1)
      | (Returned cat, w1) =>
          (Returned (),
           with_state (λ s, set_typeCursor 0 (set_typeCatalog cat s)) w1)
      end
    else (Returned (), w) in
  match fetched with
  | (Thrown, w1) => Some (Thrown, w1)
  | (Returned _, w1) =>
      let slice := (takeSlice (state w1)).1 in
      let w2 := with_state (λ s, (takeSlice s).2) w1 in
      match awaitManyDetails (poolEvents env) (ref_name <$> slice) w2 with
      | Some (batch, w3) => Some (Returned batch, w3)
      | None => None
      end
  end.

Definition searchRound (env : Env) (w : World)
  : option (Outcome (list Detail) * World) :=
  let s := state w in
  let '(poke, c, reqs) :=
    fetchDetailSafely (detailAnswer env) (currentQ s) (store w) in
  let w1 := mkWorld s c (doc w) (requests w ++ reqs) in
  let '(batch, w2) :=
    match poke, JsString.truthy (currentType s) with
    | Some p, true =>
        let hasType := existsb (λ t, String.eqb t (currentType s)) (types p) in
        if hasType then ([p], w1)
        else ([], showInfo (notOfType (currentQ s) (currentType s)) w1)
    | _, _ => (match poke with Some p => [p] | None => [] end, w1)
    end in
  Some (Returned batch, with_state (set_hasMore false) w2).

Definition pageBatch (env : Env) (w : World)
  : option (Outcome (list Detail) * World) :=
  match mode (state w) with
  | list_mode => listRound env w
  | type_mode => typeRound env w
  | search_mode => searchRound env w
  end.

(** Lines 98-102: the busy flag and the skeletons of a first page. *)
Definition beginRound (isFirstPage : bool) (w : World) : World :=
  let w := setBusy true w in
  if isFirstPage
  then renderSkeletons
         (match mode (state w) with
          | search_mode => 1
          | _ => limit (state w)
          end) w
  else w.

(** Lines 139-151: what follows a batch that was fetched. *)
Definition renderRound (isFirstPage : bool) (batch : list Detail) (w : World)
  : World :=
  let w := clearSkeletons w in
  match batch with
  | [] =>
      let w := if isFirstPage then renderEmptyState w else w in
      updateLoadMoreVisibility w
  | _ =>
      let batch := sortBatch batch (currentSort (state w)) in
      updateLoadMoreVisibility (renderCards batch w)
  end.

(** Lines 153-156: the [catch] block. *)
Definition failRound (w : World) : World :=
  showError "Error loading data from PokeAPI." (clearSkeletons w).

(** [loadMorePage(isFirstPage)], awaited.  [None]: the round never ends,
    because a promise it awaits stays pending. *)
Definition loadMorePage (env : Env) (isFirstPage : bool) (w : World)
  : option World :=
  match pageBatch env (beginRound isFirstPage w) with
  | None => None
  | Some (Thrown, w1) => Some (setBusy false (failRound w1))
  | Some (Returned batch, w1) =>
      Some (setBusy false (renderRound isFirstPage batch w1))
  end.

(** How the fetch of a round ended, and with which batch. *)
Definition roundOutcome (env : Env) (isFirstPage : bool) (w : World)
  : option (Outcome (list Detail)) :=
  fst <$> pageBatch env (beginRound isFirstPage w).

(** [runQueryFromControls] up to its [await]: lines 73-91. *)
Definition readControls (w : World) : World :=
  let d := doc w in
  let q := JsString.toLowerCase (JsString.trim (JsString.or_else (q_value d) "")) in
  let ty := JsString.toLowerCase
              (JsString.trim (JsString.or_else (typeFilter_value d) "")) in
  let srt := JsString.or_else (sortBy_value d) "id-asc" in
  let m := if JsString.truthy q then search_mode
           else if JsString.truthy ty then type_mode
           else list_mode in
  clearGrid
    (with_state (λ s, mkState m 0 (limit s) true q ty srt [] 0) w).

Definition runQueryFromControls (env : Env) (w : World) : option World :=
  loadMorePage env true (readControls w).

(** A session: the first query, then one round per later user action.
    Each round runs to its end before the next one starts. *)
Inductive Action := Submit | LoadMore.

Definition act (a : Action) (env : Env) (w : World) : option World :=
  match a with
  | Submit => runQueryFromControls env w
  | LoadMore => loadMorePage env false w
  end.

Fixpoint rounds (acts : list (Action * Env)) (w : World) : option World :=
  match acts with
  | [] => Some w
  | (a, env) :: acts' =>
      match act a env w with
      | Some w' => rounds acts' w'
      | None => None
      end
  end.

(** Type requests among the requests sent from [w] to [w']. *)
Definition typeRequests (w : World) : nat :=
  length (filter (λ r, is_ReqType r = true) (requests w)).

End Controller.

(* ================================================================== *)
(** ** Sample data *)
(* ================================================================== *)

(** Comparison by code units, a stand-in for [localeCompare]. *)
Definition codeUnitCompare (a b : string) : Z :=
  match String.compare a b with
  | Lt => -1
  | Eq => 0
  | Gt => 1
  end.

Definition pikachu : Detail := mkDetail 25 "pikachu" ["electric"].
Definition charmander : Detail := mkDetail 4 "charmander" ["fire"].
Definition bulbasaur : Detail := mkDetail 1 "bulbasaur" ["grass"; "poison"].

(** A page whose controls hold [q], [ty] and [srt]; nothing loaded yet. *)
Definition page (q ty srt : string) : World :=
  mkWorld initial_state ∅ (mkDom q ty srt [] false false []) [].

Definition quiet : Env := mkEnv None None None [].
Definition answering (d : Detail) : Env := mkEnv None None (Some d) [].

(** A server that knows three details, by name or by id. *)
Definition kanto (key : string) : option Detail :=
  if String.eqb key "pikachu" || String.eqb key "25" then Some pikachu
  else if String.eqb key "charmander" || String.eqb key "4" then Some charmander
  else if String.eqb key "bulbasaur" || String.eqb key "1" then Some bulbasaur
  else None.

Definition trio : list string := ["Pikachu"; "missingno"; " 4 "].

(** The pool on [names], served oldest first by [server]. *)
Definition served (server : string → option Detail) (names : list string)
    (c : Cache) : list Pool.Event :=
  Pool.drive server (Pool.fuel (Pool.fetchManyDetails names c))
             (Pool.fetchManyDetails names c).

(** A listing of twenty-five entries, one more than a page holds, and a
    server that has a detail for every key. *)
Definition crowd : list NamedRef :=
  (λ n : nat, mkRef ("mon" +:+ pretty n) "") <$> seq 1 25.
Definition everyone (key : string) : option Detail := Some (mkDetail 0 key []).
Definition overfull : Env :=
  mkEnv (Some (mkListJSON (Some crowd))) None None
        (served everyone (ref_name <$> crowd) ∅).

(** A type without members. *)
Definition memberless : Env :=
  mkEnv None (Some (mkTypeJSON (Some []))) None [].

(** A type with three members, all known to [kanto]. *)
Definition starters : list NamedRef :=
  [mkRef "bulbasaur" ""; mkRef "charmander" ""; mkRef "pikachu" ""].
Definition firstOfStarters : Env :=
  mkEnv None (Some (mkTypeJSON (Some starters))) None
        (served kanto (ref_name <$> starters) ∅).

Definition roster : list Detail := [pikachu; bulbasaur; charmander].
Definition rosterHeap : Heap := {[ 0%nat := roster ]}.

(* ================================================================== *)
(** ** More about the pool: what a run keeps true *)
(* ================================================================== *)

Module PoolMore.
Import Pool.

(** A request for the key of one of [names] that [c0] does not hold. *)
Definition missOf (names : list string) (c0 : Cache) (r : Request) : Prop :=
  ∃ nm, nm ∈ names ∧ r = ReqDetail (cacheKey nm) ∧ c0 !! cacheKey nm = None.

(** A finished call that was served from [c0]. *)
Definition servedFrom (c0 : Cache) (e : string * option Detail) : Prop :=
  e.2 = c0 !! cacheKey e.1.

(** A finished call whose detail, if any, is in the cache [c]. *)
Definition nowCached (c : Cache) (e : string * option Detail) : Prop :=
  is_Some e.2 → is_Some (c !! cacheKey e.1).

(** A worker that waits for an answer waits for the key of its own
    identifier. *)
Definition keyed (t : Task) : Prop :=
  match t_phase t with
  | Awaiting key => key = cacheKey (t_name t)
  | Settled _ => True
  end.

(** What every state of a run from cache [c0] on [names] satisfies, with
    [q] the identifiers not yet drawn. *)
Record Ledger (names : list string) (c0 : Cache) (q : list string) (p : St)
  : Prop := mkLedger {
  led_suffix : ∃ drawn, names = drawn ++ q;
  led_sent : (length (sent p) + length q ≤ length names)%nat;
  led_cache : dom c0 ⊆ dom (cache p);
  led_miss : Forall (missOf names c0) (sent p);
  led_awaiting : (length (awaiting_names (tasks p)) ≤ length (sent p))%nat;
  led_quiet : sent p = [] →
              cache p = c0 ∧ Forall (servedFrom c0) (returned p);
  led_cached : Forall (nowCached (cache p)) (returned p);
  led_keyed : Forall keyed (tasks p);
  led_events :
    (length (returned p) + length (awaiting_names (tasks p))
     + length q = length names)%nat;
}.

End PoolMore.

(* ================================================================== *)
(** ** The type filter: [loadTypesIntoSelect] *)
(* ================================================================== *)

(** Body of [GET /type]: the [t.name] of each entry of [data.results]. *)
Record TypesJSON := mkTypesJSON { types_results : option (list string) }.

(** The [EXCLUDE] set. *)
Definition EXCLUDE : list string := ["unknown"; "shadow"].

(** The option values that [loadTypesIntoSelect] appends to the select,
    in order (each option's label is [capitalize] of its value and is not
    modelled). *)
Definition typeOptions (localeCompare : string → string → Z)
    (data : TypesJSON) : list string :=
  Array_sort localeCompare
    (filter (λ t, t ∉ EXCLUDE)
       (JsString.toLowerCase <$> default [] (types_results data))).

(* ================================================================== *)
(** ** Pieces of [buildCard] *)
(* ================================================================== *)

(** The [ORDER] array. *)
Definition ORDER : list string :=
  ["hp"; "attack"; "defense"; "special-attack"; "special-defense"; "speed"].

(** [Object.fromEntries(entries)]: a later entry overrides an earlier one
    of the same name. *)
Definition fromEntries (entries : list (string * Z)) : gmap string Z :=
  foldl (λ m e, <[e.1 := e.2]> m) ∅ entries.

(** [s.replace(c, r)] for one-character [c] and [r]: the first occurrence
    of [c] becomes [r]. *)
Fixpoint replaceChar (c r : ascii) (s : string) : string :=
  match s with
  | EmptyString => EmptyString
  | String x s' =>
      if Ascii.eqb x c then String r s' else String x (replaceChar c r s')
  end.

(** The rows of the stats list: label and value, [None] standing for the
    placeholder dash that [map[key] ?? dash] yields when the stat is
    missing.  [stats] holds [s.stat.name] and [s.base_stat].  None of the
    six names of [ORDER] is a property that a plain object inherits, so
    [map[key]] finds own entries only. *)
Definition statLines (stats : list (string * Z)) : list (string * option Z) :=
  let map := fromEntries stats in
  (λ key, (replaceChar "-" " " key, map !! key)) <$> ORDER.

Fixpoint repeatChar (n : nat) (c : ascii) : string :=
  match n with
  | O => EmptyString
  | S n' => String c (repeatChar n' c)
  end.

(** [s.padStart(n, c)] for a one-character [c]. *)
Definition padStart (n : nat) (c : ascii) (s : string) : string :=
  repeatChar (n - String.length s) c +:+ s.

(** The text of the id badge: [`#${String(detail.id).padStart(4, '0')}`],
    for an id that is a safe integer (see [JsString.ofNumber]). *)
Definition idLabel (d : Detail) : string :=
  "#" +:+ padStart 4 "0" (JsString.ofNumber (id d)).

(* ================================================================== *)
(** ** The navigation script and the guard *)
(* ================================================================== *)

(** [s.split('/')] *)
Fixpoint splitSlash (s : string) : list string :=
  match s with
  | EmptyString => [EmptyString]
  | String c s' =>
      if Ascii.eqb c "/" then EmptyString :: splitSlash s'
      else match splitSlash s' with
           | [] => [String c EmptyString]
           | seg :: rest => String c seg :: rest
           end
  end.

(** [segments.join('/')] *)
Fixpoint joinSlash (l : list string) : string :=
  match l with
  | [] => EmptyString
  | [seg] => seg
  | seg :: rest => seg +:+ "/" +:+ joinSlash rest
  end.

(** [s.split('/').pop()] *)
Definition lastSegment (s : string) : string :=
  default EmptyString (last (splitSlash s)).

(** Whether the loop over the navigation links hides the link with this
    [href] on the page at [pathname]. *)
Definition linkHidden (pathname href : string) : bool :=
  String.eqb (lastSegment pathname) (lastSegment href).

(** [s.includes(needle)] *)
Fixpoint includes (needle s : string) : bool :=
  String.prefix needle s
  || match s with
     | EmptyString => false
     | String _ s' => includes needle s'
     end.

(** [sessionStorage] *)
Abbreviation Storage := (gmap string string).

(** The guard of a protected page: where it sends the visitor, if
    anywhere.  [getItem] yields [null] for a missing key, and [!token]
    holds for [null] and for the empty string. *)
Definition authGuard (storage : Storage) (pathname : string) : option string :=
  let target := if includes "/pages/" pathname
                then "../index.html" else "index.html" in
  match storage !! "authToken" with
  | Some token => if JsString.truthy token then None else Some target
  | None => Some target
  end.

(** The click handler of the logout button that clears the token: the
    storage after, and the page it navigates to. *)
Definition logout (storage : Storage) : Storage * string :=
  (delete "authToken" storage, "../index.html").

(** The click handler of [src/components/header.js], which only
    navigates. *)
Definition logoutKeeping (storage : Storage) : Storage * string :=
  (storage, "../index.html").

(** Requests for a listing. *)
Definition is_ReqList (r : Request) : bool :=
  match r with ReqList _ _ => true | _ => false end.

(** The [i]-th page of [cat] when it is read from cursor [c] in pages of
    [lim] members. *)
Definition catalogPage (lim c i : nat) (cat : list NamedRef) : list NamedRef :=
  take lim (drop (c + i * lim) cat).

(** The listing requests of [k] rounds that start at offset [off]. *)
Definition listingRun (lim off k : nat) : list Request :=
  (λ i, ReqList lim (off + i * lim)) <$> seq 0 k.

(** What a round adds to the grid, by how its fetch ended. *)
Definition rendered (localeCompare : string → string → Z)
    (isFirstPage : bool) (sortBy : string) (out : Outcome (list Detail))
  : list Node :=
  match out with
  | Thrown => []
  | Returned [] => if isFirstPage then [EmptyState] else []
  | Returned batch => Card <$> sortBatch localeCompare batch sortBy
  end.

(** Sample data for the pieces above. *)
Definition allTypes : TypesJSON :=
  mkTypesJSON (Some ["normal"; "Shadow"; "fire"; "unknown"; "Electric"]).
Definition someStats : list (string * Z) :=
  [("hp", 35%Z); ("speed", 90%Z); ("hp", 0%Z); ("luck", 7%Z)].
Definition loggedIn : Storage := {[ "authToken" := "abc" ]}.
Definition warm : Cache := {[ "pikachu" := pikachu ]}.
Definition twice : list string := ["Pikachu"; " pikachu"].

(** A type of twenty-five members, paged in two rounds. *)
Definition crowdFirst : Env :=
  mkEnv None (Some (mkTypeJSON (Some crowd))) None
        (served everyone (ref_name <$> take 24 crowd) ∅).
Definition crowdRest : Env :=
  mkEnv None None None (served everyone (ref_name <$> drop 24 crowd) ∅).

(** A listing of one entry, known to [kanto]. *)
Definition onePikachu : Env :=
  mkEnv (Some (mkListJSON (Some [mkRef "pikachu" ""]))) None None
        (served kanto ["pikachu"] ∅).
Definition noneLeft : Env := mkEnv (Some (mkListJSON (Some []))) None None [].

(** Two details that share an id. *)
Definition twins : list Detail :=
  [mkDetail 5 "b" []; mkDetail 5 "a" []; mkDetail 1 "c" []].

(** A string of blanks only. *)
Definition blank (s : string) : Prop :=
  JsString.allChars JsString.isWhiteSpace s = true.

(** A string without a slash. *)
Definition noSlash (s : string) : Prop :=
  JsString.allChars (λ c, negb (Ascii.eqb c "/")) s = true.

(** A printed number: the single digit 0, or a string that does not
    start with the digit 0. *)
Definition noLeadingZero (s : string) : Prop :=
  s = "0" ∨ ∃ c rest, s = String c rest ∧ c ≠ "0"%char.


(* ================================================================== *)
(** * Properties *)
(* ================================================================== *)

(** ** Strings *)

Module JsStringFacts.
Import JsString.

Lemma toLowerChar_idemp c : toLowerChar (toLowerChar c) = toLowerChar c.
Proof. by destruct c as [[] [] [] [] [] [] [] []]. Qed.

Lemma isWhiteSpace_toLowerChar c : isWhiteSpace (toLowerChar c) = isWhiteSpace c.
Proof. by destruct c as [[] [] [] [] [] [] [] []]. Qed.

Lemma toLowerCase_idemp s : toLowerCase (toLowerCase s) = toLowerCase s.
Proof. induction s as [|c s IH]; simpl; [done|]. by rewrite toLowerChar_idemp, IH. Qed.

Lemma truthy_toLowerCase s : truthy (toLowerCase s) = truthy s.
Proof. by destruct s. Qed.

Lemma or_else_empty s : or_else s "" = s.
Proof. by destruct s. Qed.

Lemma truthy_false s : truthy s = false ↔ s = "".
Proof. by destruct s. Qed.

Lemma truthy_true s : truthy s = true ↔ s ≠ "".
Proof. by destruct s. Qed.

Lemma toLowerCase_trimStart s :
  toLowerCase (trimStart s) = trimStart (toLowerCase s).
Proof.
  induction s as [|c s IH]; simpl; [done|].
  rewrite isWhiteSpace_toLowerChar. by destruct (isWhiteSpace c).
Qed.

Lemma toLowerCase_trimEnd s :
  toLowerCase (trimEnd s) = trimEnd (toLowerCase s).
Proof.
  induction s as [|c s IH]; simpl; [done|].
  rewrite <- IH, isWhiteSpace_toLowerChar.
  destruct (trimEnd s); simpl; [by destruct (isWhiteSpace c)|done].
Qed.

Lemma toLowerCase_trim s : toLowerCase (trim s) = trim (toLowerCase s).
Proof. unfold trim. by rewrite toLowerCase_trimEnd, toLowerCase_trimStart. Qed.

Lemma trimEnd_idemp s : trimEnd (trimEnd s) = trimEnd s.
Proof.
  induction s as [|c s IH]; simpl; [done|].
  destruct (trimEnd s) as [|c' t] eqn:E.
  - destruct (isWhiteSpace c) eqn:Ec; simpl; [done|by rewrite Ec].
  - simpl in *. by rewrite IH.
Qed.

Lemma trimStart_headed s : headed (trimStart s).
Proof.
  induction s as [|c s IH]; simpl; [done|].
  by destruct (isWhiteSpace c) eqn:E.
Qed.

Lemma trimStart_id s : headed s → trimStart s = s.
Proof. destruct s as [|c s]; simpl; [done|]. by intros ->. Qed.

Lemma trimEnd_headed s : headed s → headed (trimEnd s).
Proof.
  destruct s as [|c s]; simpl; [done|]. intros Hc.
  destruct (trimEnd s); simpl; [by rewrite Hc|done].
Qed.

Lemma trim_idemp s : trim (trim s) = trim s.
Proof.
  unfold trim.
  rewrite (trimStart_id (trimEnd _)) by apply trimEnd_headed, trimStart_headed.
  apply trimEnd_idemp.
Qed.








End JsStringFacts.

(** ** The cache key *)

Section CacheKey.
Import JsString JsStringFacts.

Lemma cacheKey_idemp s : cacheKey (cacheKey s) = cacheKey s.
Proof.
  unfold cacheKey.
  by rewrite toLowerCase_trim, toLowerCase_idemp, trim_idemp.
Qed.



End CacheKey.

Lemma cacheStore_lookup key d (c : Cache) :
  cacheStore key d c !! key = Some d
  ∧ cacheStore key d c !! JsString.ofNumber (id d) = Some d
  ∧ cacheStore key d c !! JsString.toLowerCase (name d) = Some d.
Proof.
  unfold cacheStore. repeat split.
  - rewrite lookup_insert. case_decide; [done|].
    rewrite lookup_insert. case_decide; [done|]. by rewrite lookup_insert_eq.
  - rewrite lookup_insert. case_decide; [done|]. by rewrite lookup_insert_eq.
  - by rewrite lookup_insert_eq.
Qed.

Lemma cacheStore_dom key d (c : Cache) :
  dom (cacheStore key d c)
  = {[JsString.toLowerCase (name d)]} ∪ ({[JsString.ofNumber (id d)]}
      ∪ ({[key]} ∪ dom c)).
Proof. unfold cacheStore. by rewrite !dom_insert_L. Qed.

(** A pool worker is one call of [fetchDetailSafely], cut at its
    [await]: [Pool.start] is the cache lookup, [Pool.Answer] the rest. *)
Lemma fetchDetailSafely_split answer s (c : Cache) :
  fetchDetailSafely answer s c
  = match c !! cacheKey s with
    | Some d => (Some d, c, [])
    | None =>
        ((fetchDetailSafely_settle (cacheKey s) answer c).1,
         (fetchDetailSafely_settle (cacheKey s) answer c).2,
         [ReqDetail (cacheKey s)])
    end.
Proof.
  unfold fetchDetailSafely. destruct (c !! cacheKey s); [done|].
  by destruct (fetchDetailSafely_settle _ _ _).
Qed.

Lemma fetchDetailSafely_hit answer s (c : Cache) d :
  c !! cacheKey s = Some d → fetchDetailSafely answer s c = (Some d, c, []).
Proof. unfold fetchDetailSafely. by intros ->. Qed.

(** Every call leaves the keys of the cache in place. *)
Lemma fetchDetailSafely_grows answer s (c : Cache) :
  dom c ⊆ dom (fetchDetailSafely answer s c).1.2.
Proof.
  unfold fetchDetailSafely. destruct (c !! cacheKey s); simpl; [done|].
  destruct answer; simpl; [|done]. rewrite cacheStore_dom. set_solver.
Qed.

(* ================================================================== *)
(** ** The worker pool *)
(* ================================================================== *)

Module PoolFacts.
Import Pool.

Lemma awaiting_names_app ts1 ts2 :
  awaiting_names (ts1 ++ ts2) = awaiting_names ts1 ++ awaiting_names ts2.
Proof. apply omap_app. Qed.

Lemma unpushed_app ts1 ts2 : unpushed (ts1 ++ ts2) = unpushed ts1 ++ unpushed ts2.
Proof. apply omap_app. Qed.

Lemma omap_length {A B} (f : A → option B) (l : list A) :
  (length (omap f l) ≤ length l)%nat.
Proof. induction l as [|x l IH]; csimpl; [done|]. destruct (f x); csimpl; lia. Qed.

Lemma omap_snd_snoc (l : list (string * option Detail)) nm d :
  omap snd (l ++ [(nm, d)]) = omap snd l ++ option_list d.
Proof. rewrite omap_app. simpl. by destruct d. Qed.

(** The loop of [next], started with [q] still queued. *)
Lemma spawn_inv names q p :
  active p = length (tasks p) →
  (active p ≤ CONCURRENCY)%nat →
  names ≡ₚ (returned p).*1 ++ awaiting_names (tasks p) ++ q →
  results p ++ unpushed (tasks p) ≡ₚ successes p →
  Forall (λ r, is_ReqType r = false) (sent p) →
  resolved p = None →
  q ≠ [] ∨ tasks p ≠ [] →
  Inv names (spawn q p).
Proof.
  revert p. induction q as [|nm q IH]; intros p Hact Hle Hnames Hres Hsent Hnone Hne.
  - simpl. split; simpl; try done.
    rewrite Hnone. right. by destruct Hne.
  - simpl. destruct (active p <? CONCURRENCY)%nat eqn:Hlt.
    + apply Nat.ltb_lt in Hlt. apply IH; clear IH.
      * unfold start. destruct (cache p !! cacheKey nm); simpl;
          rewrite length_app; simpl; lia.
      * unfold start. destruct (cache p !! cacheKey nm); simpl; lia.
      * unfold start. destruct (cache p !! cacheKey nm); simpl.
        -- rewrite fmap_app, awaiting_names_app. simpl.
           rewrite Hnames, app_nil_r. by solve_Permutation.
        -- rewrite awaiting_names_app. simpl.
           rewrite Hnames. by solve_Permutation.
      * unfold start. destruct (cache p !! cacheKey nm); simpl.
        -- rewrite unpushed_app. unfold successes. simpl.
           rewrite omap_app. simpl. fold (successes p).
           rewrite <- Hres. by solve_Permutation.
        -- rewrite unpushed_app. simpl. by rewrite app_nil_r.
      * unfold start. destruct (cache p !! cacheKey nm); simpl; [done|].
        apply Forall_app. split; [done|]. by repeat constructor.
      * unfold start. by destruct (cache p !! cacheKey nm).
      * right. unfold start.
        destruct (cache p !! cacheKey nm); simpl; by destruct (tasks p).
    + apply Nat.ltb_ge in Hlt. split; simpl; try done.
      * intros _. lia.
      * rewrite Hnone. by left.
Qed.

(** [next], called with no promise resolved yet. *)
Lemma next_inv names p :
  active p = length (tasks p) →
  (active p ≤ CONCURRENCY)%nat →
  names ≡ₚ (returned p).*1 ++ awaiting_names (tasks p) ++ queue p →
  results p ++ unpushed (tasks p) ≡ₚ successes p →
  Forall (λ r, is_ReqType r = false) (sent p) →
  resolved p = None →
  Inv names (next p).
Proof.
  intros Hact Hle Hnames Hres Hsent Hnone. unfold next.
  destruct (queue p) as [|nm q] eqn:Hq.
  - destruct (active p) as [|n] eqn:Ha.
    + assert (tasks p = []) as Ht by (by destruct (tasks p)).
      split; simpl; try done.
      all: rewrite ?Hq, ?Ht; simpl; done.
    + apply spawn_inv; try done; try (by rewrite Ha).
      right. by destruct (tasks p).
  - destruct (active p) eqn:Ha; apply spawn_inv; try done;
      try (by rewrite Ha); by left.
Qed.

Lemma fetchManyDetails_inv names c : Inv names (fetchManyDetails names c).
Proof. apply next_inv; simpl; try done. lia. Qed.

Lemma tasks_split (ts : list Task) i t :
  ts !! i = Some t →
  ∃ l1 l2, ts = l1 ++ t :: l2
    ∧ (∀ t', <[i := t']> ts = l1 ++ t' :: l2)
    ∧ delete i ts = l1 ++ l2.
Proof.
  intros H. exists (take i ts), (drop (S i) ts). split_and!.
  - by rewrite take_drop_middle.
  - intros t'. apply insert_take_drop. by eapply lookup_lt_Some.
  - apply delete_take_drop.
Qed.

Lemma step_inv names p e p' : Inv names p → step p e = Some p' → Inv names p'.
Proof.
  intros [Hact Hle Hfull Hnames Hres Hsent Hresolved] Hstep.
  destruct e as [i r|i]; simpl in Hstep.
  - destruct (tasks p !! i) as [[nm [key|d]]|] eqn:Hi; try done.
    assert ((fetchDetailSafely_settle key r (cache p)).1 = r) as Hset
      by (by destruct r).
    rewrite Hset in Hstep. simplify_eq/=.
    destruct (tasks_split _ _ _ Hi) as (l1 & l2 & Hts & Hins & _).
    split; simpl.
    + by rewrite length_insert.
    + done.
    + done.
    + rewrite Hnames, Hins, Hts.
      rewrite fmap_app, !awaiting_names_app. simpl. by solve_Permutation.
    + unfold successes in *. simpl. rewrite omap_snd_snoc, <- Hres, Hins, Hts.
      rewrite !unpushed_app. simpl.
      destruct r; simpl; by solve_Permutation.
    + done.
    + destruct (resolved p) as [b|]; [|right].
      * destruct Hresolved as (_ & _ & Hnil). by rewrite Hnil in Hi.
      * rewrite Hins. by destruct l1.
  - destruct (tasks p !! i) as [[nm [key|d]]|] eqn:Hi; try done.
    simplify_eq/=.
    destruct (tasks_split _ _ _ Hi) as (l1 & l2 & Hts & _ & Hdel).
    assert (resolved p = None) as Hnone.
    { destruct (resolved p); [|done].
      destruct Hresolved as (_ & _ & Hnil). by rewrite Hnil in Hi. }
    assert (length (tasks p) = S (length (delete i (tasks p)))) as Hlen.
    { rewrite Hdel, Hts, !length_app. simpl. lia. }
    apply next_inv; simpl; try done.
    + lia.
    + lia.
    + rewrite Hnames, Hdel, Hts. by rewrite !awaiting_names_app.
    + rewrite <- Hres, Hdel, Hts, !unpushed_app. simpl.
      destruct d; simpl; by solve_Permutation.
Qed.

Lemma run_inv names p evs p' : Inv names p → run p evs = Some p' → Inv names p'.
Proof.
  revert p. induction evs as [|e evs IH]; intros p HI Hrun; simpl in Hrun.
  - by simplify_eq.
  - destruct (step p e) as [p1|] eqn:Hs; [|done]. eauto using step_inv.
Qed.

Lemma reachable_inv names c p : reachable names c p → Inv names p.
Proof. intros [evs H]. eauto using run_inv, fetchManyDetails_inv. Qed.

End PoolFacts.

Module PoolRuns.
Import Pool PoolFacts.

Lemma weights_app ts1 ts2 :
  sum_list_with weight (ts1 ++ ts2)
  = (sum_list_with weight ts1 + sum_list_with weight ts2)%nat.
Proof. apply sum_list_with_app. Qed.

Lemma spawn_fuel q p :
  (fuel (spawn q p)
   ≤ 2 * length q + sum_list_with weight (tasks p) + pending p)%nat.
Proof.
  revert p. induction q as [|nm q IH]; intros p; simpl.
  - unfold fuel, pending. simpl. lia.
  - destruct (active p <? CONCURRENCY)%nat.
    + etrans; [apply IH|]. unfold start, pending.
      destruct (cache p !! cacheKey nm); simpl; rewrite weights_app; simpl; lia.
    + unfold fuel, pending. simpl. lia.
Qed.

Lemma next_fuel p : resolved p = None → (fuel (next p) ≤ fuel p)%nat.
Proof.
  intros Hnone. unfold next.
  destruct (queue p) eqn:Hq; [destruct (active p)|].
  - unfold fuel, pending. simpl. rewrite Hq, Hnone. simpl. lia.
  - etrans; [apply spawn_fuel|]. unfold fuel, pending. rewrite Hq. simpl. lia.
  - etrans; [apply spawn_fuel|]. unfold fuel, pending. rewrite Hq. simpl. lia.
Qed.

Lemma step_fuel names p e p' :
  Inv names p → step p e = Some p' → (fuel p' < fuel p)%nat.
Proof.
  intros [Hact Hle Hfull Hnames Hres Hsent Hresolved] Hstep.
  destruct e as [i r|i]; simpl in Hstep.
  - destruct (tasks p !! i) as [[nm [key|d]]|] eqn:Hi; try done.
    simplify_eq/=.
    destruct (tasks_split _ _ _ Hi) as (l1 & l2 & Hts & Hins & _).
    unfold fuel, pending. simpl. rewrite Hins, Hts, !weights_app. simpl. lia.
  - destruct (tasks p !! i) as [[nm [key|d]]|] eqn:Hi; try done.
    simplify_eq/=.
    destruct (tasks_split _ _ _ Hi) as (l1 & l2 & Hts & _ & Hdel).
    assert (resolved p = None) as Hnone.
    { destruct (resolved p); [|done].
      destruct Hresolved as (_ & _ & Hnil). by rewrite Hnil in Hi. }
    match goal with |- (fuel (next ?x) < _)%nat => set (p1 := x) end.
    assert (fuel p1 + 1 = fuel p)%nat as Hp1.
    { unfold fuel, pending, p1. simpl.
      rewrite Hdel, Hts, !weights_app. simpl. lia. }
    pose proof (next_fuel p1 Hnone). lia.
Qed.

(** As long as the promise is pending, a worker is pending too. *)
Lemma oldest_enabled names server p :
  Inv names p → resolved p = None →
  ∃ e p', oldest server p = Some e ∧ step p e = Some p'.
Proof.
  intros [Hact Hle Hfull Hnames Hres Hsent Hresolved] Hnone.
  rewrite Hnone in Hresolved.
  assert (tasks p ≠ []) as Hts.
  { destruct Hresolved as [Hq|]; [|done].
    specialize (Hfull Hq). intros Hnil. rewrite Hnil in Hact.
    unfold CONCURRENCY in Hfull. simpl in Hact. lia. }
  unfold oldest. destruct (tasks p) as [|[nm [key|d]] ts] eqn:Ht; [done|..].
  - eexists _, _. split; [done|]. simpl. by rewrite Ht.
  - eexists _, _. split; [done|]. simpl. by rewrite Ht.
Qed.

Lemma resolved_final names p e :
  Inv names p → is_Some (resolved p) → step p e = None.
Proof.
  intros [_ _ _ _ _ _ Hresolved] [b Hb]. rewrite Hb in Hresolved.
  destruct Hresolved as (_ & _ & Hnil).
  destruct e; simpl; by rewrite Hnil.
Qed.

Lemma drive_resolves names server n p :
  Inv names p → (fuel p ≤ n)%nat →
  ∃ p' batch, run p (drive server n p) = Some p' ∧ resolved p' = Some batch.
Proof.
  revert p. induction n as [|n IH]; intros p HI Hn.
  - destruct (resolved p) as [b|] eqn:Hb; [by exists p, b|].
    unfold fuel, pending in Hn. rewrite Hb in Hn. lia.
  - destruct (resolved p) as [b|] eqn:Hb.
    + exists p, b. split; [|done]. simpl.
      destruct (oldest server p) as [e|]; [|done].
      by rewrite (resolved_final names p e HI).
    + destruct (oldest_enabled names server p HI Hb) as (e & p1 & He & Hs).
      simpl. rewrite He, Hs. simpl. rewrite Hs.
      apply IH; [by eapply step_inv|].
      pose proof (step_fuel _ _ _ _ HI Hs). lia.
Qed.

Lemma resolved_batch names p batch :
  Inv names p → resolved p = Some batch →
  batch ≡ₚ successes p ∧ (returned p).*1 ≡ₚ names
  ∧ (length batch ≤ length names)%nat.
Proof.
  intros [Hact Hle Hfull Hnames Hres Hsent Hresolved] Hb.
  rewrite Hb in Hresolved. destruct Hresolved as (-> & Hq & Ht).
  rewrite Hq, Ht in Hnames. rewrite Ht in Hres. simpl in *.
  rewrite !app_nil_r in *. split_and!; [done|done|].
  rewrite Hres, Hnames. unfold successes. rewrite length_fmap.
  apply omap_length.
Qed.

End PoolRuns.

(** C1. For every list of identifiers and every course of events, the
    batch with which [fetchManyDetails] resolves is, up to order, the list
    of details that the [fetchDetailSafely] calls returned: each identifier
    gets exactly one call, a call that returned a detail contributes it, a
    call that returned the not-found value contributes nothing.  And the
    promise does resolve once every request has been answered. *)
Theorem fetchManyDetails_output (names : list string) (c : Cache) :
  (∀ evs p batch,
      Pool.run (Pool.fetchManyDetails names c) evs = Some p →
      Pool.resolved p = Some batch →
      (Pool.returned p).*1 ≡ₚ names
      ∧ batch ≡ₚ Pool.successes p
      ∧ ∀ d, d ∈ batch ↔ ∃ nm, (nm, Some d) ∈ Pool.returned p)
  ∧ (∀ server, ∃ p batch,
      Pool.run (Pool.fetchManyDetails names c) (served server names c) = Some p
      ∧ Pool.resolved p = Some batch).
Proof.
  split.
  - intros evs p batch Hrun Hb.
    assert (Pool.Inv names p) as HI
      by eauto using PoolFacts.run_inv, PoolFacts.fetchManyDetails_inv.
    destruct (PoolRuns.resolved_batch _ _ _ HI Hb) as (Hperm & Hnames & _).
    split_and!; [done|done|]. intros d. rewrite Hperm. unfold Pool.successes.
    rewrite list_elem_of_omap. split.
    + intros ([nm o] & Hin & Ho). simpl in Ho. subst o. by exists nm.
    + intros (nm & Hin). by exists (nm, Some d).
  - intros server. eapply PoolRuns.drive_resolves; [|done].
    apply PoolFacts.fetchManyDetails_inv.
Qed.

Lemma fetchManyDetails_output_witness :
  ∃ p batch,
    Pool.run (Pool.fetchManyDetails trio ∅) (served kanto trio ∅) = Some p
    ∧ Pool.resolved p = Some batch
    ∧ batch = [pikachu; charmander]
    ∧ batch ≡ₚ Pool.successes p.
Proof.
  destruct (Pool.run (Pool.fetchManyDetails trio ∅) (served kanto trio ∅))
    as [p|] eqn:Hrun; [|by vm_compute in Hrun].
  destruct (Pool.resolved p) as [batch|] eqn:Hb.
  - exists p, batch. split_and!; [done|done| |].
    + vm_compute in Hrun. injection Hrun as <-. vm_compute in Hb.
      by injection Hb as <-.
    + exact (proj1 (proj2 (proj1 (fetchManyDetails_output trio ∅)
                                 _ p batch Hrun Hb))).
  - vm_compute in Hrun. injection Hrun as <-. by vm_compute in Hb.
Defined.

(** C2. At every point of a run of [fetchManyDetails] the counter [active]
    equals the number of pending workers and is at most [CONCURRENCY] = 12,
    so at most 12 requests are outstanding; while identifiers are queued
    the pool is full, and a worker that resumes with the queue non-empty
    starts the next queued identifier at once. *)
Theorem active_bounded (names : list string) (c : Cache)
    (evs : list Pool.Event) (p : Pool.St) :
  Pool.run (Pool.fetchManyDetails names c) evs = Some p →
  CONCURRENCY = 12%nat
  ∧ Pool.active p = length (Pool.tasks p)
  ∧ (Pool.active p ≤ CONCURRENCY)%nat
  ∧ (length (Pool.awaiting_names (Pool.tasks p)) ≤ CONCURRENCY)%nat
  ∧ (Pool.queue p ≠ [] → Pool.active p = CONCURRENCY)
  ∧ ∀ i p' nm q,
      Pool.step p (Pool.Resume i) = Some p' → Pool.queue p = nm :: q →
      Pool.queue p' = q
      ∧ Pool.t_name <$> last (Pool.tasks p') = Some nm
      ∧ Pool.active p' = CONCURRENCY.
Proof.
  intros Hrun.
  assert (Pool.Inv names p) as HI
    by eauto using PoolFacts.run_inv, PoolFacts.fetchManyDetails_inv.
  destruct HI as [Hact Hle Hfull Hnames Hres Hsent Hresolved].
  split_and!; try done.
  - etrans; [apply PoolFacts.omap_length|]. by rewrite <- Hact.
  - intros i p' nm q Hstep Hq.
    assert (Pool.active p = CONCURRENCY) as Ha by (apply Hfull; by rewrite Hq).
    simpl in Hstep.
    destruct (Pool.tasks p !! i) as [[nm' [key|d]]|]; try done.
    simplify_eq/=. unfold Pool.next. simpl. rewrite Hq, Ha. simpl.
    destruct q as [|nm2 q]; unfold Pool.start; simpl;
      destruct (Pool.cache p !! cacheKey nm); simpl;
      by rewrite last_snoc.
Qed.

Lemma active_bounded_witness :
  ∃ p, Pool.run (Pool.fetchManyDetails trio ∅) [Pool.Answer 0 (Some pikachu)]
       = Some p
       ∧ (Pool.active p ≤ CONCURRENCY)%nat.
Proof.
  destruct (Pool.run (Pool.fetchManyDetails trio ∅)
                     [Pool.Answer 0 (Some pikachu)])
    as [p|] eqn:Hrun; [|by vm_compute in Hrun].
  exists p. split; [done|].
  exact (proj1 (proj2 (proj2 (active_bounded trio ∅ _ p Hrun)))).
Defined.

(** C10. On the empty list [fetchManyDetails] resolves at once with the
    empty batch: no worker is started, no request is sent, the cache is
    untouched, nothing is left to happen, and a caller awaiting the
    promise goes on with the empty batch. *)
Theorem fetchManyDetails_empty (c : Cache) :
  let p := Pool.fetchManyDetails [] c in
  Pool.resolved p = Some []
  ∧ Pool.tasks p = [] ∧ Pool.active p = 0%nat
  ∧ Pool.sent p = [] ∧ Pool.returned p = []
  ∧ Pool.cache p = c
  ∧ (∀ e, Pool.step p e = None)
  ∧ ∀ w, store w = c →
         awaitManyDetails [] [] w
         = Some ([], mkWorld (state w) c (doc w) (requests w ++ [])).
Proof.
  split_and!; try done; [by intros [i r|i]|].
  intros w <-. done.
Qed.

(* ================================================================== *)
(** ** The detail cache *)
(* ================================================================== *)



(** On details the two models of [fetchDetailSafely] agree: the typed one
    is the restriction of the other to bodies of the documented shape. *)
Lemma fetchDetailSafely_typed answer s (c : Cache) :
  fetchDetailSafely_body (bodyOf <$> answer) s (bodyOf <$> c)
  = (from_option bodyOf JsonNull (fetchDetailSafely answer s c).1.1,
     bodyOf <$> (fetchDetailSafely answer s c).1.2,
     (fetchDetailSafely answer s c).2).
Proof.
  unfold fetchDetailSafely_body, fetchDetailSafely. rewrite lookup_fmap.
  destruct (c !! cacheKey s) as [d|]; [done|].
  destruct answer as [d|]; [|done]. simpl.
  unfold cacheStore. by rewrite !fmap_insert.
Qed.




(* ================================================================== *)
(** ** Frames: what the steps of a round leave alone *)
(* ================================================================== *)

Section Rounds.
Variable localeCompare : string → string → Z.

Lemma awaitManyDetails_inv evs names w batch w' :
  awaitManyDetails evs names w = Some (batch, w') →
  state w' = state w ∧ doc w' = doc w
  ∧ (length batch ≤ length names)%nat
  ∧ ∃ p, Pool.run (Pool.fetchManyDetails names (store w)) evs = Some p
         ∧ Pool.resolved p = Some batch
         ∧ store w' = Pool.cache p
         ∧ requests w' = requests w ++ Pool.sent p
         ∧ Forall (λ r, is_ReqType r = false) (Pool.sent p).
Proof.
  unfold awaitManyDetails. intros H.
  destruct (Pool.run _ evs) as [p|] eqn:Hrun; [|done].
  destruct (Pool.resolved p) as [b|] eqn:Hb; [|done]. simplify_eq/=.
  assert (Pool.Inv names p) as HI
    by eauto using PoolFacts.run_inv, PoolFacts.fetchManyDetails_inv.
  destruct (PoolRuns.resolved_batch _ _ _ HI Hb) as (_ & _ & Hlen).
  split_and!; try done. exists p. split_and!; try done. by destruct HI.
Qed.

Lemma no_type_requests (l : list Request) :
  Forall (λ r, is_ReqType r = false) l →
  filter (λ r, is_ReqType r = true) l = [].
Proof.
  induction 1 as [|r l Hr _ IH]; [done|].
  rewrite filter_cons. case_decide; [congruence|done].
Qed.

Lemma typeRequests_more w w' (l : list Request) :
  requests w' = requests w ++ l →
  Forall (λ r, is_ReqType r = false) l →
  typeRequests w' = typeRequests w.
Proof.
  intros Hr Hl. unfold typeRequests.
  by rewrite Hr, filter_app, (no_type_requests l Hl), app_nil_r.
Qed.

Lemma refs_rebuilt (l : list NamedRef) :
  (λ p, mkRef (ref_name p) (ref_url p)) <$> l = l.
Proof. induction l as [|[] l IH]; [done|]. by rewrite fmap_cons, IH. Qed.

Lemma listRound_inv env w out w' :
  listRound env w = Some (out, w') →
  typeRequests w' = typeRequests w
  ∧ doc w' = doc w
  ∧ match listAnswer env with
    | None => out = Thrown ∧ state w' = state w
    | Some body =>
        ∃ batch, out = Returned batch
          ∧ (length batch ≤ length (default [] (list_results body)))%nat
          ∧ state w'
            = set_hasMore (length batch =? limit (state w))%nat
                (set_offset (offset (state w) + limit (state w)) (state w))
    end.
Proof.
  unfold listRound, fetchListPage. intros H.
  destruct (listAnswer env) as [body|].
  - destruct (awaitManyDetails _ _ _) as [[batch w2]|] eqn:Haw; [|done].
    simplify_eq/=.
    apply awaitManyDetails_inv in Haw
      as (Hst & Hdoc & Hlen & p & _ & _ & _ & Hreq & Hsent).
    rewrite length_fmap in Hlen. simpl in *. split_and!.
    + eapply (typeRequests_more w _ (ReqList _ _ :: Pool.sent p)).
      * simpl. rewrite Hreq. by rewrite <- app_assoc.
      * by constructor.
    + done.
    + exists batch. by rewrite Hst.
  - simplify_eq/=. split_and!; try done.
    eapply (typeRequests_more w _ [ReqList _ _]); [done|]. by repeat constructor.
Qed.

Lemma typeRound_inv env w out w' :
  typeRound env w = Some (out, w') →
  doc w' = doc w
  ∧ match typeCatalog (state w) with
    | [] =>
        typeRequests w' = S (typeRequests w)
        ∧ match typeAnswer env with
          | None => out = Thrown ∧ state w' = state w
          | Some data =>
              ∃ batch, out = Returned batch
                ∧ state w'
                  = (takeSlice
                       (set_typeCursor 0
                          (set_typeCatalog (default [] (type_pokemon data))
                                           (state w)))).2
          end
    | _ :: _ =>
        typeRequests w' = typeRequests w
        ∧ ∃ batch, out = Returned batch
            ∧ (length batch ≤ length (takeSlice (state w)).1)%nat
            ∧ state w' = (takeSlice (state w)).2
    end.
Proof.
  unfold typeRound, fetchTypeCatalog. intros H.
  destruct (typeCatalog (state w)) as [|r cat] eqn:Hcat;
    cbn [length Nat.eqb] in H.
  - destruct (typeAnswer env) as [data|].
    + rewrite refs_rebuilt in H.
      destruct (awaitManyDetails _ _ _) as [[batch w2]|] eqn:Haw; [|done].
      simplify_eq/=.
      apply awaitManyDetails_inv in Haw
        as (Hst & Hdoc & Hlen & p & _ & _ & _ & Hreq & Hsent).
      simpl in *. split_and!; [done| |by exists batch].
      unfold typeRequests. rewrite Hreq, !filter_app, !length_app.
      rewrite (no_type_requests _ Hsent). simpl. lia.
    + simplify_eq/=. split_and!; try done.
      unfold typeRequests. simpl. rewrite filter_app, length_app. simpl. lia.
  - destruct (awaitManyDetails _ _ _) as [[batch w2]|] eqn:Haw; [|done].
    simplify_eq/=.
    apply awaitManyDetails_inv in Haw
      as (Hst & Hdoc & Hlen & p & _ & _ & _ & Hreq & Hsent).
    rewrite length_fmap in Hlen. simpl in *. split_and!; try done.
    + by eapply typeRequests_more.
    + by exists batch.
Qed.

Lemma searchRound_inv env w out w' :
  searchRound env w = Some (out, w') →
  typeRequests w' = typeRequests w
  ∧ ∃ batch, out = Returned batch
      ∧ state w' = set_hasMore false (state w)
      ∧ (length batch ≤ 1)%nat.
Proof.
  unfold searchRound, fetchDetailSafely. intros H.
  assert (∀ l, Forall (λ r, is_ReqType r = false) l →
            typeRequests (mkWorld (state w) (store w) (doc w) (requests w ++ l))
            = typeRequests w) as Hreq.
  { intros l Hl. by eapply typeRequests_more. }
  destruct (store w !! cacheKey (currentQ (state w))) as [d|];
    [|destruct (detailAnswer env) as [d|]]; simpl in H;
    try destruct (JsString.truthy (currentType (state w)));
    try destruct (existsb _ (types d));
    simplify_eq/=; (split; [|eexists; split_and!; try done; simpl; lia]).
  all: unfold typeRequests; simpl;
    rewrite ?filter_app, ?length_app, ?app_nil_r; simpl; lia.
Qed.

Lemma pageBatch_keeps env w out w' :
  pageBatch env w = Some (out, w') →
  mode (state w') = mode (state w)
  ∧ limit (state w') = limit (state w)
  ∧ currentType (state w') = currentType (state w)
  ∧ currentQ (state w') = currentQ (state w).
Proof.
  unfold pageBatch. intros H. destruct (mode (state w)) eqn:Hm.
  - apply listRound_inv in H as (_ & _ & H).
    destruct (listAnswer env); [destruct H as (b & _ & _ & ->)|destruct H as [_ ->]];
      by rewrite ?Hm.
  - apply typeRound_inv in H as (_ & H).
    destruct (typeCatalog (state w));
      [destruct H as [_ H]; destruct (typeAnswer env);
         [destruct H as (b & _ & ->)|destruct H as [_ ->]]
      |destruct H as (_ & b & _ & _ & ->)];
      by rewrite ?Hm.
  - apply searchRound_inv in H as (_ & b & _ & -> & _). by rewrite ?Hm.
Qed.

(** What ends a round changes neither the state nor the request log. *)
Lemma loadMorePage_inv env first w w' :
  loadMorePage localeCompare env first w = Some w' →
  ∃ out w1, pageBatch env (beginRound first w) = Some (out, w1)
    ∧ state w' = state w1 ∧ store w' = store w1
    ∧ requests w' = requests w1
    ∧ w' = setBusy false
             (match out with
              | Returned batch => renderRound localeCompare first batch w1
              | Thrown => failRound w1
              end).
Proof.
  unfold loadMorePage. intros H.
  destruct (pageBatch env (beginRound first w)) as [[[batch|] w1]|]; [..|done].
  - exists (Returned batch), w1. simplify_eq. split_and!; try done.
    all: unfold renderRound; destruct batch; by destruct first.
  - exists Thrown, w1. by simplify_eq.
Qed.

Lemma beginRound_inv first w :
  state (beginRound first w) = state w
  ∧ store (beginRound first w) = store w
  ∧ requests (beginRound first w) = requests w
  ∧ toasts (doc (beginRound first w)) = toasts (doc w).
Proof. unfold beginRound. by destruct first. Qed.

End Rounds.

(* ================================================================== *)
(** ** Query submission and page rounds *)
(* ================================================================== *)

Section RoundProperties.
Variable localeCompare : string → string → Z.

Lemma loadMorePage_keeps env first w w' :
  loadMorePage localeCompare env first w = Some w' →
  mode (state w') = mode (state w)
  ∧ limit (state w') = limit (state w)
  ∧ currentType (state w') = currentType (state w)
  ∧ currentQ (state w') = currentQ (state w).
Proof.
  intros H. apply loadMorePage_inv in H as (out & w1 & Hb & Hst & _).
  apply pageBatch_keeps in Hb.
  destruct (beginRound_inv first w) as (Hs0 & _). rewrite Hs0 in Hb.
  by rewrite Hst.
Qed.

(** C3, as the code has it.  The mode that a submission leaves in the
    state is a function of the two filter inputs alone: search if the
    trimmed search text is non-empty, else type if the trimmed category is
    non-empty, else list; and the round that follows keeps it. *)
Theorem mode_from_controls (w : World) :
  let m := if JsString.truthy (JsString.trim (q_value (doc w)))
           then search_mode
           else if JsString.truthy (JsString.trim (typeFilter_value (doc w)))
           then type_mode
           else list_mode in
  mode (state (readControls w)) = m
  ∧ ∀ env w', runQueryFromControls localeCompare env w = Some w' →
              mode (state w') = m.
Proof.
  intros m.
  assert (mode (state (readControls w)) = m) as Hm.
  { unfold readControls, m. simpl.
    by rewrite !JsStringFacts.truthy_toLowerCase, !JsStringFacts.or_else_empty. }
  split; [done|]. intros env w' H.
  apply loadMorePage_keeps in H as (-> & _). done.
Qed.

(** C5, as the code has it.  [fetchListPage] returns at most as many
    details as the listing names, hence at most [limit] when the listing
    keeps to the limit asked for.  A completed list-mode round whose
    listing request succeeded has moved the offset by exactly [limit],
    whatever the size of the batch; one whose listing request failed has
    left the offset where it was. *)
Theorem list_round_offset (env : Env) :
  (∀ off lim w batch w1,
      fetchListPage env off lim w = Some (Returned batch, w1) →
      ∃ body, listAnswer env = Some body
        ∧ (length batch ≤ length (default [] (list_results body)))%nat
        ∧ ((length (default [] (list_results body)) ≤ lim)%nat →
           (length batch ≤ lim)%nat))
  ∧ (∀ first w w',
      mode (state w) = list_mode →
      loadMorePage localeCompare env first w = Some w' →
      offset (state w')
      = match listAnswer env with
        | Some _ => (offset (state w) + limit (state w))%nat
        | None => offset (state w)
        end).
Proof.
  split.
  - intros off lim w batch w1. unfold fetchListPage.
    destruct (listAnswer env) as [body|]; [|done].
    destruct (awaitManyDetails _ _ _) as [[b w2]|] eqn:Haw; [|done].
    intros ?; simplify_eq. exists body.
    apply awaitManyDetails_inv in Haw as (_ & _ & Hlen & _).
    rewrite length_fmap in Hlen. split_and!; [done|done|lia].
  - intros first w w' Hmode H.
    apply loadMorePage_inv in H as (out & w1 & Hb & Hst & _).
    destruct (beginRound_inv first w) as (Hs0 & _).
    unfold pageBatch in Hb. rewrite Hs0, Hmode in Hb.
    apply listRound_inv in Hb as (_ & _ & Hb). rewrite Hst.
    destruct (listAnswer env).
    + destruct Hb as (b & _ & _ & ->). by rewrite Hs0.
    + destruct Hb as (_ & ->). by rewrite Hs0.
Qed.

End RoundProperties.

Lemma mode_from_controls_witness :
  ∃ w', runQueryFromControls codeUnitCompare (answering pikachu)
                             (page " 25" "" "") = Some w'
        ∧ mode (state w') = search_mode.
Proof.
  destruct (runQueryFromControls codeUnitCompare (answering pikachu)
                                 (page " 25" "" "")) as [w'|] eqn:H;
    [|by vm_compute in H].
  exists w'. split; [done|].
  exact (proj2 (mode_from_controls codeUnitCompare (page " 25" "" ""))
               _ _ H).
Defined.

(** C3 as stated fails on a category that is non-empty but blank: with no
    search text the mode is list, not type. *)
Lemma blank_category_is_list_mode :
  let w := page "" " " "id-asc" in
  JsString.trim (q_value (doc w)) = ""
  ∧ typeFilter_value (doc w) ≠ ""
  ∧ mode (state (readControls w)) = list_mode.
Proof. by vm_compute. Qed.

Lemma list_round_offset_witness :
  ∃ w', loadMorePage codeUnitCompare overfull true (page "" "" "") = Some w'
        ∧ offset (state w') = 24%nat.
Proof.
  destruct (loadMorePage codeUnitCompare overfull true (page "" "" ""))
    as [w'|] eqn:H; [|by vm_compute in H].
  exists w'. split; [done|].
  exact (proj2 (list_round_offset codeUnitCompare overfull)
               true (page "" "" "") w' eq_refl H).
Defined.

(** C5 as stated fails twice over.  A round whose listing request fails
    ends with the offset unmoved.  And a listing that names twenty-five
    entries where twenty-four were asked for yields twenty-five details. *)
Lemma list_round_offset_counterexample :
  (∃ w', loadMorePage codeUnitCompare quiet true (page "" "" "") = Some w'
         ∧ mode (state (page "" "" "")) = list_mode
         ∧ offset (state w') = offset (state (page "" "" "")))
  ∧ (∃ batch w1,
        fetchListPage overfull 0 24 (page "" "" "") = Some (Returned batch, w1)
        ∧ length batch = 25%nat).
Proof. split; [eexists|eexists _, _]; by vm_compute. Qed.

Section MoreRoundProperties.
Variable localeCompare : string → string → Z.

Lemma catalogSlice_length s :
  (length (catalogSlice s) ≤ limit s)%nat
  ∧ (length (catalogSlice s) ≤ length (typeCatalog s) - typeCursor s)%nat.
Proof. unfold catalogSlice. rewrite length_take, length_drop. lia. Qed.

Lemma takeSlice_state s :
  typeCatalog (takeSlice s).2 = typeCatalog s
  ∧ typeCursor (takeSlice s).2 = (typeCursor s + length (catalogSlice s))%nat
  ∧ hasMore (takeSlice s).2
    = (typeCursor (takeSlice s).2 <? length (typeCatalog s))%nat
  ∧ (takeSlice s).1 = catalogSlice s.
Proof. done. Qed.

Lemma roundOutcome_of env first w out w1 :
  pageBatch env (beginRound first w) = Some (out, w1) →
  roundOutcome env first w = Some out.
Proof. unfold roundOutcome. by intros ->. Qed.


(** C6, as the code has it.  A type-mode round that finds no catalog
    stored sends exactly one type request and stores what it gets, so the
    first round after a submission sends exactly one.  A type-mode round
    that finds a non-empty catalog stored sends none, keeps the catalog,
    resolves its next slice and moves the cursor by the size of that
    slice; so once a non-empty catalog is stored, no number of further
    rounds sends a type request. *)
Theorem type_catalog_fetched_once :
  (∀ env first w w',
      mode (state w) = type_mode →
      loadMorePage localeCompare env first w = Some w' →
      match typeCatalog (state w) with
      | [] =>
          typeRequests w' = S (typeRequests w)
          ∧ typeCatalog (state w')
            = match typeAnswer env with
              | Some data => default [] (type_pokemon data)
              | None => []
              end
      | _ :: _ =>
          typeRequests w' = typeRequests w
          ∧ typeCatalog (state w') = typeCatalog (state w)
          ∧ typeCursor (state w')
            = (typeCursor (state w) + length (catalogSlice (state w)))%nat
          ∧ ∃ batch, roundOutcome env first w = Some (Returned batch)
              ∧ (length batch ≤ length (catalogSlice (state w)))%nat
      end)
  ∧ (∀ env0 w w1,
      mode (state (readControls w)) = type_mode →
      runQueryFromControls localeCompare env0 w = Some w1 →
      typeRequests w1 = S (typeRequests w)
      ∧ ∀ envs w2,
          typeCatalog (state w1) ≠ [] →
          rounds localeCompare (pair LoadMore <$> envs) w1 = Some w2 →
          typeRequests w2 = typeRequests w1
          ∧ typeCatalog (state w2) = typeCatalog (state w1)).
Proof.
  assert (∀ env first w w',
      mode (state w) = type_mode →
      loadMorePage localeCompare env first w = Some w' →
      match typeCatalog (state w) with
      | [] =>
          typeRequests w' = S (typeRequests w)
          ∧ typeCatalog (state w')
            = match typeAnswer env with
              | Some data => default [] (type_pokemon data)
              | None => []
              end
      | _ :: _ =>
          typeRequests w' = typeRequests w
          ∧ typeCatalog (state w') = typeCatalog (state w)
          ∧ typeCursor (state w')
            = (typeCursor (state w) + length (catalogSlice (state w)))%nat
          ∧ ∃ batch, roundOutcome env first w = Some (Returned batch)
              ∧ (length batch ≤ length (catalogSlice (state w)))%nat
      end) as Hround.
  { intros env first w w' Hmode H.
    apply loadMorePage_inv in H as (out & w1 & Hb & Hst & _ & Hreq & _).
    pose proof (roundOutcome_of _ _ _ _ _ Hb) as Hout.
    destruct (beginRound_inv first w) as (Hs0 & _ & Hr0 & _).
    unfold pageBatch in Hb. rewrite Hs0, Hmode in Hb.
    apply typeRound_inv in Hb as (_ & Hb). rewrite Hs0 in Hb.
    assert (typeRequests w' = typeRequests w1) as ->
      by (unfold typeRequests; by rewrite Hreq).
    assert (typeRequests (beginRound first w) = typeRequests w) as Hbegin
      by (unfold typeRequests; by rewrite Hr0).
    rewrite Hbegin in Hb. rewrite Hst.
    destruct (typeCatalog (state w)) as [|r cat] eqn:Hcat.
    - destruct Hb as (-> & Hb). split; [done|].
      destruct (typeAnswer env) as [data|].
      + by destruct Hb as (b & _ & ->).
      + destruct Hb as (_ & ->). done.
    - destruct Hb as (-> & b & -> & Hlen & ->).
      destruct (takeSlice_state (state w)) as (-> & -> & _ & Hsl).
      rewrite Hsl in Hlen. split_and!; try done. by exists b. }
  split; [exact Hround|].
  intros env0 w w1 Hmode Hrun. unfold runQueryFromControls in Hrun.
  pose proof (Hround _ _ _ _ Hmode Hrun) as H1.
  pose proof (loadMorePage_keeps _ _ _ _ _ Hrun) as (Hm1 & _).
  rewrite Hmode in Hm1. simpl in H1. destruct H1 as (H1 & _).
  split; [exact H1|]. clear Hrun H1 Hmode.
  intros envs. revert w1 Hm1.
  induction envs as [|env envs IH]; intros w1 Hm1 w2 Hne Hrounds;
    simpl in Hrounds.
  - by simplify_eq.
  - destruct (loadMorePage localeCompare env false w1) as [w1'|] eqn:Hl;
      [|done].
    pose proof (Hround _ _ _ _ Hm1 Hl) as H1.
    pose proof (loadMorePage_keeps _ _ _ _ _ Hl) as (Hm1' & _).
    rewrite Hm1 in Hm1'.
    destruct (typeCatalog (state w1)) as [|r cat] eqn:Hcat; [done|].
    destruct H1 as (Hreq & Hcat' & _).
    destruct (IH w1' Hm1' w2) as (-> & ->); [by rewrite Hcat'|done|done].
Qed.

End MoreRoundProperties.



Lemma type_catalog_fetched_once_witness :
  ∃ w1 w2,
    runQueryFromControls codeUnitCompare firstOfStarters (page "" "fire" "")
    = Some w1
    ∧ rounds codeUnitCompare (pair LoadMore <$> [quiet; quiet]) w1 = Some w2
    ∧ typeRequests w1 = 1%nat
    ∧ typeRequests w2 = typeRequests w1.
Proof.
  destruct (runQueryFromControls codeUnitCompare firstOfStarters
                                 (page "" "fire" "")) as [w1|] eqn:H1;
    [|by vm_compute in H1].
  destruct (rounds codeUnitCompare (pair LoadMore <$> [quiet; quiet]) w1)
    as [w2|] eqn:H2;
    [|vm_compute in H1; injection H1 as <-; by vm_compute in H2].
  exists w1, w2.
  destruct (proj2 (type_catalog_fetched_once codeUnitCompare)
                  firstOfStarters (page "" "fire" "") w1 eq_refl H1)
    as (Hone & Hmore).
  assert (typeCatalog (state w1) ≠ []) as Hne
    by (vm_compute in H1; by injection H1 as <-).
  split_and!; [done|done|exact Hone|].
  exact (proj1 (Hmore [quiet; quiet] w2 Hne H2)).
Defined.

(** C6 as stated fails when the first round stores no catalog.  If the
    type request of the first round fails, the next load-more sends it
    again; and if the type has no members, the stored catalog is empty and
    the next round cannot tell it from one never fetched. *)
Lemma type_catalog_fetched_once_counterexample :
  (∃ w1 w2,
      runQueryFromControls codeUnitCompare quiet (page "" "fire" "") = Some w1
      ∧ loadMorePage codeUnitCompare quiet false w1 = Some w2
      ∧ btnMore_hidden (doc w1) = false
      ∧ typeRequests w1 = 1%nat ∧ typeRequests w2 = 2%nat)
  ∧ (∃ w1 w2,
      runQueryFromControls codeUnitCompare memberless (page "" "fire" "")
      = Some w1
      ∧ loadMorePage codeUnitCompare memberless false w1 = Some w2
      ∧ typeRequests w1 = 1%nat ∧ typeRequests w2 = 2%nat).
Proof. split; eexists _, _; split_and!; by vm_compute. Qed.

(* ================================================================== *)
(** ** Search with a type filter *)
(* ================================================================== *)

Lemma existsb_eqb_false (ty : string) (l : list string) :
  ty ∉ l → existsb (λ t, String.eqb t ty) l = false.
Proof.
  induction l as [|t l IH]; simpl; [done|].
  intros [Hne Hl]%not_elem_of_cons. rewrite (IH Hl), orb_false_r.
  apply String.eqb_neq. congruence.
Qed.

Lemma cards_without_skeletons (g : list Node) :
  filter (λ n, is_card n = true) (filter (λ n, is_skeleton n = false) g)
  = filter (λ n, is_card n = true) g.
Proof.
  induction g as [|[|d|] g IH]; [done|..];
    rewrite ?filter_cons; repeat case_decide; try done;
    rewrite ?filter_cons; repeat case_decide; try done; by rewrite IH.
Qed.

Section SearchRound.
Variable localeCompare : string → string → Z.

(** C9. In search mode with a type filter set, when the lookup returns a
    detail that is not of that type, the round completes with an empty
    batch: it adds no card to the grid, shows exactly one notice, of kind
    info, and leaves [hasMore] false and the load-more button hidden. *)
Theorem search_type_mismatch env first w p :
  mode (state w) = search_mode →
  currentType (state w) ≠ "" →
  (fetchDetailSafely (detailAnswer env) (currentQ (state w)) (store w)).1.1
  = Some p →
  currentType (state w) ∉ types p →
  ∃ w', loadMorePage localeCompare env first w = Some w'
    ∧ roundOutcome env first w = Some (Returned [])
    ∧ filter (λ n, is_card n = true) (grid (doc w'))
      = filter (λ n, is_card n = true) (grid (doc w))
    ∧ toasts (doc w')
      = toasts (doc w)
        ++ [(toast_info,
             notOfType (currentQ (state w)) (currentType (state w)))]
    ∧ hasMore (state w') = false
    ∧ btnMore_hidden (doc w') = true.
Proof.
  intros Hmode Hty%JsStringFacts.truthy_true Hp Hnot%existsb_eqb_false.
  unfold loadMorePage, roundOutcome, pageBatch.
  assert (state (beginRound first w) = state w
          ∧ store (beginRound first w) = store w
          ∧ toasts (doc (beginRound first w)) = toasts (doc w)
          ∧ filter (λ n, is_card n = true) (grid (doc (beginRound first w)))
            = filter (λ n, is_card n = true) (grid (doc w)))
    as (Hs0 & Hc0 & Ht0 & Hg0).
  { unfold beginRound. destruct first; simpl; [|done]. rewrite Hmode.
    split_and!; try done. rewrite filter_app. simpl.
    rewrite filter_cons. case_decide; [done|]. by rewrite app_nil_r. }
  remember (beginRound first w) as w0 eqn:E. clear E.
  rewrite Hs0, Hmode. unfold searchRound. rewrite Hs0, Hc0.
  destruct (fetchDetailSafely _ _ _) as [[poke c] reqs].
  simpl in Hp. subst poke. rewrite Hty, Hnot.
  eexists. split; [done|]. split; [done|].
  destruct first; simpl; rewrite Ht0; (split_and!; try done); rewrite <- Hg0.
  - rewrite filter_app, cards_without_skeletons, filter_cons.
    case_decide; [done|]. by rewrite filter_nil, app_nil_r.
  - by rewrite cards_without_skeletons.
Qed.

End SearchRound.

Lemma search_type_mismatch_witness :
  let w := readControls (page "Pikachu" "fire" "") in
  mode (state w) = search_mode
  ∧ currentType (state w) = "fire"
  ∧ ∃ w', loadMorePage codeUnitCompare (answering pikachu) true w = Some w'
      ∧ toasts (doc w') = [(toast_info, notOfType "pikachu" "fire")]
      ∧ hasMore (state w') = false.
Proof.
  intros w. split; [done|]. split; [done|].
  destruct (search_type_mismatch codeUnitCompare (answering pikachu) true w
              pikachu eq_refl) as (w' & Hrun & _ & _ & Htoast & Hmore & _).
  - done.
  - done.
  - change ("fire" ∉ ["electric"]). by intros [=]%list_elem_of_singleton.
  - by exists w'.
Defined.

(* ================================================================== *)
(** ** Sorting *)
(* ================================================================== *)

Section ArraySort.
Context {A : Type} (cmp : A → A → Z).

Lemma insert_by_perm x l : insert_by cmp x l ≡ₚ x :: l.
Proof.
  induction l as [|y l IH]; simpl; [done|].
  destruct (cmp y x <? 0)%Z; [|done]. rewrite IH. apply Permutation_swap.
Qed.

Lemma Array_sort_perm l : Array_sort cmp l ≡ₚ l.
Proof.
  induction l as [|x l IH]; simpl; [done|].
  fold (Array_sort cmp l). by rewrite insert_by_perm, IH.
Qed.

Hypothesis Hcmp : Consistent cmp.

Lemma notAfter_total a b : ¬ (cmp b a < 0)%Z → notAfter cmp a b.
Proof.
  intros Hn. unfold notAfter. destruct (Z_le_gt_dec (cmp a b) 0) as [|Hgt]; [done|].
  destruct Hn. apply (consistent_swap cmp Hcmp). lia.
Qed.

Lemma notAfter_keeps a b : notAfter cmp a b → (cmp b a <? 0)%Z = false.
Proof.
  unfold notAfter. intros H. apply Z.ltb_ge.
  destruct (Z_lt_ge_dec (cmp b a) 0) as [Hlt|]; [|lia].
  apply (consistent_swap cmp Hcmp) in Hlt. lia.
Qed.

Lemma insert_by_sorted x l :
  StronglySorted (notAfter cmp) l →
  StronglySorted (notAfter cmp) (insert_by cmp x l).
Proof.
  induction 1 as [|y l Hl IH Hy]; simpl; [by repeat constructor|].
  destruct (cmp y x <? 0)%Z eqn:Hyx.
  - constructor; [done|]. rewrite insert_by_perm. constructor; [|done].
    apply Z.ltb_lt in Hyx. unfold notAfter. lia.
  - apply Z.ltb_ge in Hyx.
    assert (notAfter cmp x y) as Hxy by (apply notAfter_total; lia).
    constructor; [by constructor|]. constructor; [done|].
    eapply Forall_impl; [exact Hy|]. intros b Hb.
    by eapply (consistent_trans cmp Hcmp).
Qed.

Lemma Array_sort_sorted l : StronglySorted (notAfter cmp) (Array_sort cmp l).
Proof.
  induction l as [|x l IH]; simpl; [constructor|].
  by apply insert_by_sorted.
Qed.

(** Sorting what is already in order changes nothing. *)
Lemma Array_sort_id l : Sorted (notAfter cmp) l → Array_sort cmp l = l.
Proof.
  induction 1 as [|x l Hl IH Hx]; simpl; [done|].
  fold (Array_sort cmp l). rewrite IH.
  destruct Hx as [|y l Hxy]; simpl; [done|]. by rewrite notAfter_keeps.
Qed.

End ArraySort.

Lemma by_id_asc_consistent : Consistent by_id_asc.
Proof. split; unfold by_id_asc; intros; lia. Qed.

Lemma by_id_desc_consistent : Consistent by_id_desc.
Proof. split; unfold by_id_desc; intros; lia. Qed.

Lemma by_name_asc_consistent lc : Consistent lc → Consistent (by_name_asc lc).
Proof.
  intros [Hs Ht]. split; unfold by_name_asc; intros; [apply Hs|by eapply Ht].
Qed.

Lemma by_name_desc_consistent lc : Consistent lc → Consistent (by_name_desc lc).
Proof.
  intros [Hs Ht]. split; unfold by_name_desc; intros; [apply Hs|by eapply Ht].
Qed.

Lemma codeUnitCompare_consistent : Consistent codeUnitCompare.
Proof.
  assert (∀ a b, (codeUnitCompare a b ≤ 0)%Z ↔ String.le a b) as Hle.
  { intros a b. unfold codeUnitCompare, String.le, String.leb.
    destruct (a ?= b)%string; simpl; split; try done; lia. }
  split.
  - intros a b. unfold codeUnitCompare. rewrite (String.compare_antisym a b).
    destruct (b ?= a)%string; simpl; lia.
  - intros a b c. rewrite !Hle. apply transitivity.
Qed.

Lemma comparator_cases lc sortBy :
  match comparator lc sortBy with
  | Some cmp =>
      (sortBy = "id-asc" ∧ cmp = by_id_asc)
      ∨ (sortBy = "id-desc" ∧ cmp = by_id_desc)
      ∨ (sortBy = "name-asc" ∧ cmp = by_name_asc lc)
      ∨ (sortBy = "name-desc" ∧ cmp = by_name_desc lc)
  | None => sortBy ∉ ["id-asc"; "id-desc"; "name-asc"; "name-desc"]
  end.
Proof.
  unfold comparator.
  destruct (String.eqb_spec sortBy "id-asc"); [by left|].
  destruct (String.eqb_spec sortBy "id-desc"); [by right; left|].
  destruct (String.eqb_spec sortBy "name-asc"); [by right; right; left|].
  destruct (String.eqb_spec sortBy "name-desc"); [by right; right; right|].
  rewrite !not_elem_of_cons. split_and!; try done. apply not_elem_of_nil.
Qed.

Lemma StronglySorted_iff {A} (R R' : A → A → Prop) l :
  (∀ a b, R a b ↔ R' a b) → StronglySorted R l → StronglySorted R' l.
Proof.
  intros HR. induction 1 as [|x l Hl IH Hx]; constructor; [done|].
  eapply Forall_impl; [exact Hx|]. intros b. apply HR.
Qed.

Lemma Sorted_iff {A} (R R' : A → A → Prop) l :
  (∀ a b, R a b ↔ R' a b) → Sorted R l → Sorted R' l.
Proof.
  intros HR. induction 1 as [|x l Hl IH Hx]; constructor; [done|].
  destruct Hx; constructor. by apply HR.
Qed.

Lemma Array_sort_by {A} (cmp : A → A → Z) (R : A → A → Prop) l :
  Consistent cmp → (∀ a b, notAfter cmp a b ↔ R a b) →
  StronglySorted R (Array_sort cmp l)
  ∧ (Sorted R l → Array_sort cmp l = l).
Proof.
  intros Hc HR. split.
  - eapply StronglySorted_iff; [exact HR|]. by apply Array_sort_sorted.
  - intros Hs. apply Array_sort_id; [done|].
    eapply Sorted_iff; [|exact Hs]. intros a b. by rewrite HR.
Qed.

Section SortPokemons.
Variable localeCompare : string → string → Z.
Hypothesis localeCompare_consistent : Consistent localeCompare.

(** C8. [sortPokemons] returns an array that did not exist before and
    leaves every existing array, its argument included, as it was.  The
    new array is a permutation of the argument.  For each of the four
    keys it is ordered by that key, and equals the argument, element for
    element, when the argument was already in that order.  For any other
    key it equals the argument. *)
Theorem sortPokemons_spec (h : Heap) (arr : nat) (l : list Detail)
    (sortBy : string) :
  h !! arr = Some l →
  let out := (sortPokemons localeCompare arr sortBy h).1 in
  let h' := (sortPokemons localeCompare arr sortBy h).2 in
  (out ∉ dom h)
  ∧ out ≠ arr
  ∧ (∀ a, a ∈ dom h → h' !! a = h !! a)
  ∧ h' !! arr = Some l
  ∧ ∃ l', h' !! out = Some l'
      ∧ sortBatch localeCompare l sortBy = l'
      ∧ l' ≡ₚ l
      ∧ (sortBy = "id-asc" →
           StronglySorted (λ a b, (id a ≤ id b)%Z) l'
           ∧ (Sorted (λ a b, (id a ≤ id b)%Z) l → l' = l))
      ∧ (sortBy = "id-desc" →
           StronglySorted (λ a b, (id b ≤ id a)%Z) l'
           ∧ (Sorted (λ a b, (id b ≤ id a)%Z) l → l' = l))
      ∧ (sortBy = "name-asc" →
           StronglySorted
             (λ a b, (localeCompare (name a) (name b) ≤ 0)%Z) l'
           ∧ (Sorted (λ a b, (localeCompare (name a) (name b) ≤ 0)%Z) l →
              l' = l))
      ∧ (sortBy = "name-desc" →
           StronglySorted
             (λ a b, (localeCompare (name b) (name a) ≤ 0)%Z) l'
           ∧ (Sorted (λ a b, (localeCompare (name b) (name a) ≤ 0)%Z) l →
              l' = l))
      ∧ (sortBy ∉ ["id-asc"; "id-desc"; "name-asc"; "name-desc"] → l' = l).
Proof.
  intros Harr out h'.
  assert (out = fresh (dom h)) as Hout.
  { unfold out, sortPokemons, spread. by destruct (comparator _ _). }
  assert (out ∉ dom h) as Hfresh by (rewrite Hout; apply is_fresh).
  assert (out ≠ arr) as Hne.
  { intros ->. apply Hfresh, elem_of_dom. by eexists. }
  set (l' := match comparator localeCompare sortBy with
             | Some cmp => Array_sort cmp l
             | None => l
             end).
  assert (h' = <[out := l']> h) as Hh'.
  { unfold h', l', sortPokemons, spread, sort_in_place. rewrite Harr, Hout.
    simpl. destruct (comparator _ _); simpl; [|done].
    by rewrite alter_insert_eq. }
  assert (sortBatch localeCompare l sortBy = l') as Hbatch.
  { unfold sortBatch, l', sortPokemons, spread, sort_in_place.
    rewrite lookup_singleton_eq. simpl.
    destruct (comparator _ _); simpl.
    - by rewrite alter_insert_eq, lookup_insert_eq.
    - by rewrite lookup_insert_eq. }
  split_and!; try done.
  - intros a Ha. rewrite Hh', lookup_insert_ne; [done|]. by intros ->.
  - by rewrite Hh', lookup_insert_ne.
  - exists l'. rewrite Hh', lookup_insert_eq. split; [done|]. split; [done|].
    pose proof (comparator_cases localeCompare sortBy) as Hcases.
    unfold l'. destruct (comparator localeCompare sortBy) as [cmp|].
    + split; [apply Array_sort_perm|].
      destruct Hcases as [[-> ->]|[[-> ->]|[[-> ->]|[-> ->]]]];
        (split_and!;
           [..|intros Hnot; exfalso; apply Hnot; set_solver]);
        intros Hk; try discriminate Hk; clear Hk.
      * apply Array_sort_by; [apply by_id_asc_consistent|].
        intros a b. unfold notAfter, by_id_asc. lia.
      * apply Array_sort_by; [apply by_id_desc_consistent|].
        intros a b. unfold notAfter, by_id_desc. lia.
      * apply Array_sort_by; [by apply by_name_asc_consistent|done].
      * apply Array_sort_by; [by apply by_name_desc_consistent|done].
    + split; [done|]. split_and!; try done; intros ->; exfalso; apply Hcases;
        set_solver.
Qed.

End SortPokemons.

Lemma sortPokemons_spec_witness :
  let out := (sortPokemons codeUnitCompare 0 "name-asc" rosterHeap).1 in
  let h' := (sortPokemons codeUnitCompare 0 "name-asc" rosterHeap).2 in
  rosterHeap !! 0%nat = Some roster
  ∧ h' !! 0%nat = Some roster
  ∧ out ≠ 0%nat
  ∧ h' !! out = Some [bulbasaur; charmander; pikachu].
Proof.
  intros out h'.
  destruct (sortPokemons_spec codeUnitCompare codeUnitCompare_consistent
              rosterHeap 0 roster "name-asc" eq_refl)
    as (_ & Hne & _ & Harr & l' & Hout & Hbatch & _).
  split_and!; [done|exact Harr|exact Hne|].
  fold out h' in Hout. rewrite Hout, <- Hbatch. done.
Defined.

(* ================================================================== *)
(** ** Worked examples *)
(* ================================================================== *)

Example cacheKey_trims_and_lowers : cacheKey "  PikaCHU " = "pikachu".
Proof. reflexivity. Qed.

Example ofNumber_negative : JsString.ofNumber (-25) = "-25".
Proof. reflexivity. Qed.

(** Thirteen identifiers: twelve workers start, one identifier waits. *)
Example pool_fills_up :
  let p := Pool.fetchManyDetails ((λ n : nat, pretty n) <$> seq 1 13) ∅ in
  Pool.active p = 12%nat ∧ Pool.queue p = ["13"] ∧ Pool.resolved p = None.
Proof. by vm_compute. Qed.

(** Two identifiers with the same key, both started before either is
    answered, cost two requests and yield the detail twice. *)
Example pool_duplicate_names :
  ∃ p, Pool.run (Pool.fetchManyDetails ["pikachu"; "PIKACHU"] ∅)
                (served kanto ["pikachu"; "PIKACHU"] ∅) = Some p
       ∧ Pool.resolved p = Some [pikachu; pikachu]
       ∧ Pool.sent p = [ReqDetail "pikachu"; ReqDetail "pikachu"].
Proof. eexists. split_and!; by vm_compute. Qed.

Example sort_by_id_desc :
  sortBatch codeUnitCompare roster "id-desc" = [pikachu; charmander; bulbasaur].
Proof. reflexivity. Qed.

Example sort_unknown_key :
  sortBatch codeUnitCompare roster "weight" = roster.
Proof. reflexivity. Qed.

(** The scenario of a type with three members and a page of 24. *)
Example type_round_of_three :
  ∃ w', runQueryFromControls codeUnitCompare firstOfStarters
                             (page "" "fire" "name-desc") = Some w'
        ∧ grid (doc w') = [Card pikachu; Card charmander; Card bulbasaur]
        ∧ typeCursor (state w') = 3%nat
        ∧ hasMore (state w') = false
        ∧ btnMore_hidden (doc w') = true
        ∧ aria_busy (doc w') = false.
Proof. eexists. split_and!; by vm_compute. Qed.

(* ================================================================== *)
(** * Further properties *)
(* ================================================================== *)

(** ** The pool: requests, order of draw, length of a run *)

Module PoolLedger.
Import Pool PoolMore PoolFacts.

Lemma awaiting_length_insert l1 l2 nm key d :
  length (awaiting_names (l1 ++ mkTask nm (Awaiting key) :: l2))
  = S (length (awaiting_names (l1 ++ mkTask nm (Settled d) :: l2))).
Proof. rewrite !awaiting_names_app, !length_app. simpl. lia. Qed.

Lemma nowCached_mono (c c' : Cache) e :
  dom c ⊆ dom c' → nowCached c e → nowCached c' e.
Proof.
  unfold nowCached. intros Hsub H Hs. specialize (H Hs).
  apply elem_of_dom, Hsub, elem_of_dom, H.
Qed.

Lemma start_ledger names c0 nm q p :
  Ledger names c0 (nm :: q) p → Ledger names c0 q (start nm p).
Proof.
  intros [[drawn Hd] Hsent Hcache Hmiss Haw Hquiet Hcached Hkeyed Hev].
  assert (nm ∈ names) as Hin.
  { rewrite Hd. apply elem_of_app. right. apply list_elem_of_here. }
  simpl in *. unfold start.
  destruct (cache p !! cacheKey nm) as [d|] eqn:Hc; split; simpl;
    rewrite ?length_app, ?awaiting_names_app; simpl;
    rewrite ?length_app; simpl; try done; try lia.
  - exists (drawn ++ [nm]). by rewrite <- app_assoc.
  - intros Hs. destruct (Hquiet Hs) as [Hc0 Hret]. split; [done|].
    apply Forall_app. split; [done|]. constructor; [|done].
    unfold servedFrom. simpl. by rewrite <- Hc0.
  - apply Forall_app. split; [done|]. constructor; [|done].
    intros _. simpl. by rewrite Hc.
  - apply Forall_app. split; [done|]. by repeat constructor.
  - exists (drawn ++ [nm]). by rewrite <- app_assoc.
  - apply Forall_app. split; [done|]. constructor; [|done].
    exists nm. split_and!; [done|done|].
    apply not_elem_of_dom. intros Hk. apply Hcache in Hk.
    by apply not_elem_of_dom in Hc.
  - intros Hs. by destruct (sent p).
  - apply Forall_app. split; [done|]. by repeat constructor.
Qed.

Lemma set_queue_ledger names c0 q q' p :
  Ledger names c0 q p → Ledger names c0 q (set_queue q' p).
Proof. by intros []. Qed.

Lemma spawn_ledger names c0 q p :
  Ledger names c0 q p → Ledger names c0 (queue (spawn q p)) (spawn q p).
Proof.
  revert p. induction q as [|nm q IH]; intros p HL; simpl.
  - by apply set_queue_ledger.
  - destruct (active p <? CONCURRENCY)%nat.
    + by apply IH, start_ledger.
    + by apply set_queue_ledger.
Qed.

Lemma next_ledger names c0 p :
  Ledger names c0 (queue p) p → Ledger names c0 (queue (next p)) (next p).
Proof.
  intros HL. unfold next.
  destruct (queue p) eqn:Hq; [destruct (active p)|];
    try (by apply spawn_ledger).
  destruct HL. split; simpl; rewrite ?Hq; done.
Qed.

Lemma fetchManyDetails_ledger names c :
  let p := fetchManyDetails names c in Ledger names c (queue p) p.
Proof.
  apply next_ledger. split; simpl; try done; try lia.
  by exists [].
Qed.

Lemma step_ledger names c0 p e p' :
  Ledger names c0 (queue p) p → step p e = Some p' →
  Ledger names c0 (queue p') p'.
Proof.
  intros HL Hstep. destruct e as [i r|i]; simpl in Hstep.
  - destruct (tasks p !! i) as [[nm [key|d]]|] eqn:Hi; try done.
    assert ((fetchDetailSafely_settle key r (cache p)).1 = r) as Hset
      by (by destruct r).
    rewrite Hset in Hstep. simplify_eq/=.
    destruct HL as [Hd Hsent Hcache Hmiss Haw Hquiet Hcached Hkeyed Hev].
    destruct (tasks_split _ _ _ Hi) as (l1 & l2 & Hts & Hins & _).
    assert (key = cacheKey nm) as ->.
    { rewrite Hts in Hkeyed. apply Forall_app in Hkeyed as [_ Hk].
      by apply Forall_cons in Hk as [Hk _]. }
    assert (dom (cache p)
            ⊆ dom (fetchDetailSafely_settle (cacheKey nm) r (cache p)).2)
      as Hgrow.
    { destruct r; simpl; [|done]. rewrite cacheStore_dom.
      intros k Hk. rewrite !elem_of_union. auto. }
    rewrite Hts in Haw, Hev.
    rewrite (awaiting_length_insert _ _ _ _ r) in Haw, Hev.
    split; simpl; rewrite ?Hins, ?length_app; simpl; try done; try lia.
    + by etrans.
    + intros Hs. rewrite Hs in Haw. simpl in Haw. lia.
    + apply Forall_app. split.
      * eapply Forall_impl; [exact Hcached|]. intros e.
        by apply nowCached_mono.
      * constructor; [|done]. unfold nowCached. simpl.
        destruct r as [data|]; simpl; [intros _|by intros []].
        destruct (cacheStore_lookup (cacheKey nm) data (cache p)) as (-> & _).
        by eexists.
    + rewrite Hts in Hkeyed. apply Forall_app in Hkeyed as [Hk1 Hk2].
      apply Forall_cons in Hk2 as [_ Hk2].
      apply Forall_app. split; [done|]. by constructor.
  - destruct (tasks p !! i) as [[nm [key|d]]|] eqn:Hi; try done.
    simplify_eq/=.
    destruct (tasks_split _ _ _ Hi) as (l1 & l2 & Hts & _ & Hdel).
    apply next_ledger. simpl.
    destruct HL as [Hd Hsent Hcache Hmiss Haw Hquiet Hcached Hkeyed Hev].
    rewrite Hts in Haw, Hev, Hkeyed.
    rewrite awaiting_names_app in Haw, Hev. simpl in Haw, Hev.
    split; simpl; rewrite ?Hdel, ?awaiting_names_app; try done.
    apply Forall_app in Hkeyed as [Hk1 Hk2].
    apply Forall_cons in Hk2 as [_ Hk2]. by apply Forall_app.
Qed.

Lemma run_ledger names c0 p evs p' :
  Ledger names c0 (queue p) p → run p evs = Some p' →
  Ledger names c0 (queue p') p'.
Proof.
  revert p. induction evs as [|e evs IH]; intros p HL Hrun; simpl in Hrun.
  - by simplify_eq.
  - destruct (step p e) as [p1|] eqn:Hs; [|done]. eauto using step_ledger.
Qed.

(** Events so far, counted from what the state records. *)
Lemma start_balance nm p :
  (length (sent (start nm p)) + length (returned (start nm p))
   + length (tasks p)
   = length (sent p) + length (returned p) + length (tasks (start nm p)))%nat.
Proof.
  unfold start. destruct (cache p !! cacheKey nm); simpl;
    rewrite !length_app; simpl; lia.
Qed.

Lemma spawn_balance q p :
  (length (sent (spawn q p)) + length (returned (spawn q p))
   + length (tasks p)
   = length (sent p) + length (returned p) + length (tasks (spawn q p)))%nat.
Proof.
  revert p. induction q as [|nm q IH]; intros p; simpl; [done|].
  destruct (active p <? CONCURRENCY)%nat; [|done].
  pose proof (IH (start nm p)). pose proof (start_balance nm p). lia.
Qed.

Lemma next_balance p :
  (length (sent (next p)) + length (returned (next p)) + length (tasks p)
   = length (sent p) + length (returned p) + length (tasks (next p)))%nat.
Proof.
  unfold next. destruct (queue p); [destruct (active p)|];
    try apply spawn_balance. done.
Qed.

Lemma step_balance p e p' :
  step p e = Some p' →
  (S (length (sent p) + length (returned p) + length (tasks p'))
   = length (sent p') + length (returned p') + length (tasks p))%nat.
Proof.
  intros Hstep. destruct e as [i r|i]; simpl in Hstep.
  - destruct (tasks p !! i) as [[nm [key|d]]|] eqn:Hi; try done.
    simplify_eq/=. rewrite length_insert, length_app. simpl. lia.
  - destruct (tasks p !! i) as [[nm [key|d]]|] eqn:Hi; try done.
    simplify_eq/=.
    destruct (tasks_split _ _ _ Hi) as (l1 & l2 & Hts & _ & Hdel).
    match goal with |- context [next ?x] => set (p1 := x) end.
    pose proof (next_balance p1) as Hb.
    change (sent p1) with (sent p) in Hb.
    change (returned p1) with (returned p) in Hb.
    assert (length (tasks p) = S (length (tasks p1))) as Hlen.
    { unfold p1. simpl. rewrite Hdel, Hts, !length_app. simpl. lia. }
    lia.
Qed.

Lemma run_balance p evs p' :
  run p evs = Some p' →
  (length evs + length (sent p) + length (returned p) + length (tasks p')
   = length (sent p') + length (returned p') + length (tasks p))%nat.
Proof.
  revert p. induction evs as [|e evs IH]; intros p Hrun; simpl in Hrun.
  - simplify_eq. simpl. lia.
  - destruct (step p e) as [p1|] eqn:Hs; [|done].
    pose proof (step_balance _ _ _ Hs). pose proof (IH _ Hrun). simpl. lia.
Qed.

Lemma fetchManyDetails_balance names c :
  let p := fetchManyDetails names c in
  (length (sent p) + length (returned p) = length (tasks p))%nat.
Proof.
  simpl. unfold fetchManyDetails.
  match goal with |- context [next ?x] =>
    pose proof (next_balance x) as Hb end.
  simpl in Hb. lia.
Qed.

End PoolLedger.

(** X1. A run of the pool never sends more requests than it was given
    identifiers, and every request it sends is for the key of one of
    those identifiers that the cache did not hold when the run began. *)
Theorem pool_requests_are_misses (names : list string) (c : Cache)
    (evs : list Pool.Event) (p : Pool.St) :
  Pool.run (Pool.fetchManyDetails names c) evs = Some p →
  (length (Pool.sent p) ≤ length names)%nat
  ∧ ∀ r, r ∈ Pool.sent p →
         ∃ nm, nm ∈ names ∧ r = ReqDetail (cacheKey nm)
               ∧ c !! cacheKey nm = None.
Proof.
  intros Hrun.
  pose proof (PoolLedger.run_ledger names c _ _ _
                (PoolLedger.fetchManyDetails_ledger names c) Hrun) as HL.
  destruct HL as [_ Hsent _ Hmiss _ _ _ _ _]. split; [lia|].
  intros r Hr. rewrite Forall_forall in Hmiss. exact (Hmiss r Hr).
Qed.

Lemma pool_requests_are_misses_witness :
  ∃ p, Pool.run (Pool.fetchManyDetails trio warm) (served kanto trio warm)
       = Some p
       ∧ (length (Pool.sent p) ≤ length trio)%nat.
Proof.
  destruct (Pool.run (Pool.fetchManyDetails trio warm)
                     (served kanto trio warm)) as [p|] eqn:Hrun;
    [|by vm_compute in Hrun].
  exists p. split; [done|].
  exact (proj1 (pool_requests_are_misses trio warm _ p Hrun)).
Defined.

(** X2. When the cache holds the key of every identifier, a run of the
    pool sends no request and leaves the cache as it was, and the batch
    it resolves with is, up to order, the cached detail of each
    identifier. *)
Theorem pool_all_cached (names : list string) (c : Cache)
    (evs : list Pool.Event) (p : Pool.St) :
  (∀ nm, nm ∈ names → is_Some (c !! cacheKey nm)) →
  Pool.run (Pool.fetchManyDetails names c) evs = Some p →
  Pool.sent p = []
  ∧ Pool.cache p = c
  ∧ ∀ batch, Pool.resolved p = Some batch →
             batch ≡ₚ omap (λ nm, c !! cacheKey nm) names.
Proof.
  intros Hall Hrun.
  pose proof (PoolLedger.run_ledger names c _ _ _
                (PoolLedger.fetchManyDetails_ledger names c) Hrun) as HL.
  destruct HL as [_ _ _ Hmiss _ Hquiet _ _ _].
  assert (Pool.sent p = []) as Hs.
  { destruct (Pool.sent p) as [|r l]; [done|].
    apply Forall_cons in Hmiss as [(nm & Hin & _ & Hnone) _].
    destruct (Hall nm Hin) as [d Hd]. congruence. }
  destruct (Hquiet Hs) as [Hc Hret]. split_and!; [done|done|].
  intros batch Hb.
  assert (Pool.Inv names p) as HI
    by eauto using PoolFacts.run_inv, PoolFacts.fetchManyDetails_inv.
  destruct (PoolRuns.resolved_batch _ _ _ HI Hb) as (-> & Hnames & _).
  rewrite <- Hnames. unfold Pool.successes.
  clear -Hret. induction Hret as [|[nm d] l Hd _ IH]; [done|].
  unfold PoolMore.servedFrom in Hd. simpl in Hd. subst d. csimpl.
  destruct (c !! cacheKey nm); csimpl; by rewrite IH.
Qed.

Lemma pool_all_cached_witness :
  ∃ p, Pool.run (Pool.fetchManyDetails twice warm) (served kanto twice warm)
       = Some p
       ∧ Pool.sent p = [] ∧ Pool.cache p = warm
       ∧ Pool.resolved p = Some [pikachu; pikachu].
Proof.
  destruct (Pool.run (Pool.fetchManyDetails twice warm)
                     (served kanto twice warm)) as [p|] eqn:Hrun;
    [|by vm_compute in Hrun].
  assert (∀ nm, nm ∈ twice → is_Some (warm !! cacheKey nm)) as Hall.
  { intros nm Hin. unfold twice in Hin.
    apply elem_of_cons in Hin as [->|Hin]; [by eexists|].
    apply list_elem_of_singleton in Hin as ->. by eexists. }
  destruct (pool_all_cached twice warm _ p Hall Hrun) as (Hs & Hc & _).
  exists p. split_and!; [done|done|done|].
  vm_compute in Hrun. by injection Hrun as <-.
Defined.

(** X3. The queue of the pool is always what is left of the input list:
    identifiers are drawn from the front, in order, and each one drawn is
    either still awaiting its answer or has had its call return. *)
Theorem pool_draws_in_order (names : list string) (c : Cache)
    (evs : list Pool.Event) (p : Pool.St) :
  Pool.run (Pool.fetchManyDetails names c) evs = Some p →
  ∃ drawn, names = drawn ++ Pool.queue p
    ∧ length drawn
      = (length (Pool.returned p)
         + length (Pool.awaiting_names (Pool.tasks p)))%nat.
Proof.
  intros Hrun.
  pose proof (PoolLedger.run_ledger names c _ _ _
                (PoolLedger.fetchManyDetails_ledger names c) Hrun) as HL.
  destruct HL as [[drawn Hd] _ _ _ _ _ _ _ Hev]. exists drawn.
  split; [done|]. apply (f_equal length) in Hd.
  rewrite length_app in Hd. lia.
Qed.

Lemma pool_draws_in_order_witness :
  ∃ p drawn,
    Pool.run (Pool.fetchManyDetails trio ∅) [Pool.Answer 0 None] = Some p
    ∧ trio = drawn ++ Pool.queue p.
Proof.
  destruct (Pool.run (Pool.fetchManyDetails trio ∅) [Pool.Answer 0 None])
    as [p|] eqn:Hrun; [|by vm_compute in Hrun].
  destruct (pool_draws_in_order trio ∅ _ p Hrun) as (drawn & Hd & _).
  by exists p, drawn.
Defined.

(** X4. A run of the pool on n identifiers has at most 2n events.  While
    the promise is pending some event can happen; once it has resolved
    none can, and the run then counted exactly one resumption per
    identifier and one answer per request sent. *)
Theorem pool_run_length (names : list string) (c : Cache)
    (evs : list Pool.Event) (p : Pool.St) :
  Pool.run (Pool.fetchManyDetails names c) evs = Some p →
  (length evs ≤ 2 * length names)%nat
  ∧ (Pool.resolved p = None → ∃ e p', Pool.step p e = Some p')
  ∧ (is_Some (Pool.resolved p) →
     (∀ e, Pool.step p e = None)
     ∧ length evs = (length names + length (Pool.sent p))%nat).
Proof.
  intros Hrun.
  pose proof (PoolLedger.run_ledger names c _ _ _
                (PoolLedger.fetchManyDetails_ledger names c) Hrun) as HL.
  assert (Pool.Inv names p) as HI
    by eauto using PoolFacts.run_inv, PoolFacts.fetchManyDetails_inv.
  pose proof (PoolLedger.run_balance _ _ _ Hrun) as Hbal.
  pose proof (PoolLedger.fetchManyDetails_balance names c) as Hb0.
  simpl in Hb0.
  destruct HL as [_ Hsent _ _ _ _ _ _ Hev]. split_and!.
  - lia.
  - intros Hnone.
    destruct (PoolRuns.oldest_enabled names (λ _, None) p HI Hnone)
      as (e & p' & _ & Hs).
    by exists e, p'.
  - intros [batch Hb]. split.
    + intros e. apply (PoolRuns.resolved_final names); [done|by eexists].
    + destruct HI as [_ _ _ _ _ _ Hres]. rewrite Hb in Hres.
      destruct Hres as (_ & Hq & Ht). rewrite Hq, Ht in *. simpl in *. lia.
Qed.

Lemma pool_run_length_witness :
  ∃ p, Pool.run (Pool.fetchManyDetails trio ∅) (served kanto trio ∅) = Some p
       ∧ length (served kanto trio ∅) = 6%nat
       ∧ (length (served kanto trio ∅) ≤ 2 * length trio)%nat.
Proof.
  destruct (Pool.run (Pool.fetchManyDetails trio ∅) (served kanto trio ∅))
    as [p|] eqn:Hrun; [|by vm_compute in Hrun].
  exists p. split_and!; [done|done|].
  exact (proj1 (pool_run_length trio ∅ _ p Hrun)).
Defined.

(** X5. Whenever a call of the pool has returned a detail for an
    identifier, the cache holds that identifier's key from then on: a
    later [fetchDetailSafely] on it is a hit that sends no request. *)
Theorem pool_results_cached (names : list string) (c : Cache)
    (evs : list Pool.Event) (p : Pool.St) (nm : string) (d : Detail)
    (answer : option Detail) :
  Pool.run (Pool.fetchManyDetails names c) evs = Some p →
  (nm, Some d) ∈ Pool.returned p →
  dom c ⊆ dom (Pool.cache p)
  ∧ ∃ d', fetchDetailSafely answer nm (Pool.cache p)
          = (Some d', Pool.cache p, []).
Proof.
  intros Hrun Hin.
  pose proof (PoolLedger.run_ledger names c _ _ _
                (PoolLedger.fetchManyDetails_ledger names c) Hrun) as HL.
  destruct HL as [_ _ Hcache _ _ _ Hcached _ _]. split; [done|].
  rewrite Forall_forall in Hcached.
  destruct (Hcached _ Hin) as [d' Hd']; [by eexists|].
  exists d'. by apply fetchDetailSafely_hit.
Qed.

Lemma pool_results_cached_witness :
  ∃ p d', Pool.run (Pool.fetchManyDetails trio ∅) (served kanto trio ∅)
          = Some p
          ∧ fetchDetailSafely None "PIKACHU" (Pool.cache p)
            = (Some d', Pool.cache p, []).
Proof.
  destruct (Pool.run (Pool.fetchManyDetails trio ∅) (served kanto trio ∅))
    as [p|] eqn:Hrun; [|by vm_compute in Hrun].
  assert (("Pikachu", Some pikachu) ∈ Pool.returned p) as Hin.
  { pose proof Hrun as Hv. vm_compute in Hv. injection Hv as <-.
    apply list_elem_of_here. }
  destruct (pool_results_cached trio ∅ _ p "Pikachu" pikachu None Hrun Hin)
    as (_ & d' & Hhit).
  exists p, d'. split; [done|].
  unfold fetchDetailSafely in *.
  change (cacheKey "PIKACHU") with (cacheKey "Pikachu"). exact Hhit.
Defined.

(* ================================================================== *)
(** ** Page rounds: what they keep and what they show *)
(* ================================================================== *)

(** Two documents that differ at most in their notices. *)
Lemma awaitManyDetails_frame evs names w batch w' :
  awaitManyDetails evs names w = Some (batch, w') →
  state w' = state w ∧ doc w' = doc w
  ∧ dom (store w) ⊆ dom (store w')
  ∧ ∃ sent, requests w' = requests w ++ sent
      ∧ Forall (λ r, is_ReqList r = false) sent.
Proof.
  intros H.
  apply awaitManyDetails_inv in H
    as (Hst & Hdoc & _ & p & Hrun & _ & Hstore & Hreq & _).
  pose proof (PoolLedger.run_ledger names (store w) _ _ _
                (PoolLedger.fetchManyDetails_ledger names (store w)) Hrun)
    as [_ _ Hcache Hmiss _ _ _ _ _].
  split_and!; [done|done|by rewrite Hstore|].
  exists (Pool.sent p). split; [done|].
  eapply Forall_impl; [exact Hmiss|]. by intros r (nm & _ & -> & _).
Qed.

Lemma skeletons_cleared (g : list Node) (n : nat) :
  filter (λ x, is_skeleton x = false) (g ++ replicate n Skeleton)
  = filter (λ x, is_skeleton x = false) g.
Proof.
  rewrite filter_app. induction n as [|n IH]; simpl; [by rewrite app_nil_r|].
  rewrite filter_cons. case_decide; [done|]. exact IH.
Qed.

Lemma filter_no_skeleton (g : list Node) :
  Forall (λ x, is_skeleton x = false) (filter (λ x, is_skeleton x = false) g).
Proof.
  induction g as [|x g IH]; [constructor|].
  rewrite filter_cons. case_decide; [by constructor|done].
Qed.

Lemma beginRound_doc first w :
  filter (λ x, is_skeleton x = false) (grid (doc (beginRound first w)))
  = filter (λ x, is_skeleton x = false) (grid (doc w))
  ∧ btnMore_hidden (doc (beginRound first w)) = btnMore_hidden (doc w)
  ∧ q_value (doc (beginRound first w)) = q_value (doc w)
  ∧ typeFilter_value (doc (beginRound first w)) = typeFilter_value (doc w)
  ∧ sortBy_value (doc (beginRound first w)) = sortBy_value (doc w).
Proof.
  unfold beginRound. destruct first; simpl; [|done].
  split_and!; try done. apply skeletons_cleared.
Qed.

(** What the fetch of a round leaves alone. *)
Lemma pageBatch_frame env w out w1 :
  pageBatch env w = Some (out, w1) →
  grid (doc w1) = grid (doc w)
  ∧ btnMore_hidden (doc w1) = btnMore_hidden (doc w)
  ∧ q_value (doc w1) = q_value (doc w)
  ∧ typeFilter_value (doc w1) = typeFilter_value (doc w)
  ∧ sortBy_value (doc w1) = sortBy_value (doc w)
  ∧ currentSort (state w1) = currentSort (state w)
  ∧ dom (store w) ⊆ dom (store w1)
  ∧ match out with
    | Thrown =>
        state w1 = state w ∧ store w1 = store w
        ∧ toasts (doc w1) = toasts (doc w)
        ∧ length (requests w1) = S (length (requests w))
    | Returned _ =>
        filter (λ t, is_error t = true) (toasts (doc w1))
        = filter (λ t, is_error t = true) (toasts (doc w))
        ∧ (mode (state w) ≠ search_mode → toasts (doc w1) = toasts (doc w))
        ∧ (length (toasts (doc w1)) ≤ S (length (toasts (doc w))))%nat
    end.
Proof.
  unfold pageBatch. destruct (mode (state w)) eqn:Hmode.
  - unfold listRound, fetchListPage.
    destruct (listAnswer env) as [body|].
    + destruct (awaitManyDetails _ _ _) as [[batch w2]|] eqn:Haw; [|done].
      intros ?; simplify_eq/=.
      apply awaitManyDetails_frame in Haw as (Hst & Hdoc & Hdom & _).
      rewrite Hdoc, Hst. simpl. split_and!; try done. lia.
    + intros ?; simplify_eq/=. rewrite length_app. simpl.
      split_and!; try done. lia.
  - unfold typeRound, fetchTypeCatalog.
    destruct (length (typeCatalog (state w)) =? 0)%nat;
      [destruct (typeAnswer env) as [data|]|].
    + destruct (awaitManyDetails _ _ _) as [[batch w2]|] eqn:Haw; [|done].
      intros ?; simplify_eq/=.
      apply awaitManyDetails_frame in Haw as (Hst & Hdoc & Hdom & _).
      rewrite Hdoc, Hst. simpl. split_and!; try done. lia.
    + intros ?; simplify_eq/=. rewrite length_app. simpl.
      split_and!; try done. lia.
    + destruct (awaitManyDetails _ _ _) as [[batch w2]|] eqn:Haw; [|done].
      intros ?; simplify_eq/=.
      apply awaitManyDetails_frame in Haw as (Hst & Hdoc & Hdom & _).
      rewrite Hdoc, Hst. simpl. split_and!; try done. lia.
  - unfold searchRound.
    pose proof (fetchDetailSafely_grows (detailAnswer env)
                  (currentQ (state w)) (store w)) as Hgrow.
    destruct (fetchDetailSafely _ _ _) as [[poke c] reqs]. simpl in Hgrow.
    destruct poke as [p|];
      [destruct (JsString.truthy (currentType (state w)));
         [destruct (existsb _ (types p))|]|];
      intros ?; simplify_eq/=; split_and!; try done; try lia.
    + by rewrite filter_app, filter_cons_False, filter_nil, app_nil_r.
    + rewrite length_app. simpl. lia.
Qed.

Lemma renderRound_doc lc first batch w :
  state (renderRound lc first batch w) = state w
  ∧ store (renderRound lc first batch w) = store w
  ∧ requests (renderRound lc first batch w) = requests w
  ∧ toasts (doc (renderRound lc first batch w)) = toasts (doc w)
  ∧ btnMore_hidden (doc (renderRound lc first batch w))
    = negb (hasMore (state w))
  ∧ q_value (doc (renderRound lc first batch w)) = q_value (doc w)
  ∧ typeFilter_value (doc (renderRound lc first batch w))
    = typeFilter_value (doc w)
  ∧ sortBy_value (doc (renderRound lc first batch w)) = sortBy_value (doc w)
  ∧ grid (doc (renderRound lc first batch w))
    = filter (λ x, is_skeleton x = false) (grid (doc w))
      ++ rendered lc first (currentSort (state w)) (Returned batch).
Proof.
  unfold renderRound, rendered. destruct batch as [|d batch].
  - destruct first; simpl; split_and!; try done. by rewrite app_nil_r.
  - simpl. split_and!; done.
Qed.

Section RoundExtras.
Variable localeCompare : string → string → Z.

(** X6. Every round that completes, failed or not, ends with the busy
    flag off and no skeleton in the grid.  What was in the grid before,
    skeletons apart, is still there in the same order, followed by what
    the round rendered: nothing after a failure, the empty-state marker
    after an empty first page, else one card per detail of the sorted
    batch. *)
Theorem round_settles_grid env first w w' :
  loadMorePage localeCompare env first w = Some w' →
  ∃ out, roundOutcome env first w = Some out
    ∧ aria_busy (doc w') = false
    ∧ Forall (λ x, is_skeleton x = false) (grid (doc w'))
    ∧ grid (doc w')
      = filter (λ x, is_skeleton x = false) (grid (doc w))
        ++ rendered localeCompare first (currentSort (state w)) out.
Proof.
  intros H. apply loadMorePage_inv in H as (out & w1 & Hb & _ & _ & _ & ->).
  exists out. split; [by eapply roundOutcome_of|].
  apply pageBatch_frame in Hb as (Hg & _ & _ & _ & _ & Hsort & _).
  destruct (beginRound_inv first w) as (Hs0 & _).
  destruct (beginRound_doc first w) as (Hg0 & _).
  rewrite Hs0 in Hsort.
  assert (grid (doc (setBusy false
            match out with
            | Returned batch => renderRound localeCompare first batch w1
            | Thrown => failRound w1
            end))
          = filter (λ x, is_skeleton x = false) (grid (doc w))
            ++ rendered localeCompare first (currentSort (state w)) out)
    as Hgrid.
  { destruct out as [batch|]; simpl.
    - destruct (renderRound_doc localeCompare first batch w1)
        as (_ & _ & _ & _ & _ & _ & _ & _ & ->).
      by rewrite Hg, Hg0, Hsort.
    - by rewrite Hg, Hg0, app_nil_r. }
  split_and!; [done| |done].
  rewrite Hgrid. apply Forall_app. split; [apply filter_no_skeleton|].
  unfold rendered. destruct out as [[|d batch]|]; [destruct first|..];
    try by repeat constructor.
  apply Forall_fmap, Forall_forall. done.
Qed.

(** X7. A round whose listing or type request fails changes neither the
    state nor the cache nor the visibility of the load-more button; it
    has sent that one request and shows exactly one notice, an error. *)
Theorem failed_round_keeps_state env first w w' :
  loadMorePage localeCompare env first w = Some w' →
  roundOutcome env first w = Some Thrown →
  state w' = state w
  ∧ store w' = store w
  ∧ btnMore_hidden (doc w') = btnMore_hidden (doc w)
  ∧ length (requests w') = S (length (requests w))
  ∧ toasts (doc w')
    = toasts (doc w) ++ [(toast_error, "Error loading data from PokeAPI.")].
Proof.
  intros H Hout.
  apply loadMorePage_inv in H as (out & w1 & Hb & _ & _ & _ & ->).
  rewrite (roundOutcome_of _ _ _ _ _ Hb) in Hout. simplify_eq.
  apply pageBatch_frame in Hb
    as (_ & Hbtn & _ & _ & _ & _ & _ & Hst & Hstore & Ht & Hreq).
  destruct (beginRound_inv first w) as (Hs0 & Hc0 & Hr0 & Ht0).
  destruct (beginRound_doc first w) as (_ & Hb0 & _).
  simpl. rewrite Hst, Hstore, Hbtn, Hreq, Ht, Hs0, Hc0, Hr0, Ht0, Hb0. done.
Qed.


(** X9. The cache only grows: over any sequence of submissions and
    load-more rounds, every key the cache held at the start is still a
    key at the end. *)
Theorem cache_only_grows acts w w' :
  rounds localeCompare acts w = Some w' → dom (store w) ⊆ dom (store w').
Proof.
  assert (∀ env first w w',
            loadMorePage localeCompare env first w = Some w' →
            dom (store w) ⊆ dom (store w')) as Hround.
  { clear. intros env first w w' H.
    apply loadMorePage_inv in H as (out & w1 & Hb & _ & -> & _).
    apply pageBatch_frame in Hb as (_ & _ & _ & _ & _ & _ & Hdom & _).
    by destruct (beginRound_inv first w) as (_ & <- & _). }
  revert w. induction acts as [|[a env] acts IH]; intros w H; simpl in H.
  - by simplify_eq.
  - destruct (act localeCompare a env w) as [w1|] eqn:Ha; [|done].
    etrans; [|by apply IH]. destruct a; simpl in Ha.
    + unfold runQueryFromControls in Ha. by apply Hround in Ha.
    + by apply Hround in Ha.
Qed.

End RoundExtras.

Lemma round_settles_grid_witness :
  ∃ w', loadMorePage codeUnitCompare firstOfStarters true
                     (readControls (page "" "fire" "")) = Some w'
        ∧ aria_busy (doc w') = false
        ∧ grid (doc w') = [Card bulbasaur; Card charmander; Card pikachu].
Proof.
  destruct (loadMorePage codeUnitCompare firstOfStarters true
                         (readControls (page "" "fire" "")))
    as [w'|] eqn:H; [|by vm_compute in H].
  exists w'. split; [done|].
  destruct (round_settles_grid _ _ _ _ _ H) as (out & Hout & Hbusy & _ & Hg).
  split; [done|]. rewrite Hg. vm_compute in Hout. by injection Hout as <-.
Defined.

Lemma failed_round_keeps_state_witness :
  ∃ w', loadMorePage codeUnitCompare quiet false (page "" "" "") = Some w'
        ∧ state w' = state (page "" "" "")
        ∧ length (toasts (doc w')) = 1%nat.
Proof.
  destruct (loadMorePage codeUnitCompare quiet false (page "" "" ""))
    as [w'|] eqn:H; [|by vm_compute in H].
  exists w'. split; [done|].
  destruct (failed_round_keeps_state _ _ _ _ _ H eq_refl)
    as (Hst & _ & _ & _ & Ht).
  split; [done|]. by rewrite Ht.
Defined.


Lemma cache_only_grows_witness :
  ∃ w', rounds codeUnitCompare
          [(Submit, answering pikachu); (LoadMore, quiet)]
          (page "25" "" "") = Some w'
        ∧ dom (store (page "25" "" "")) ⊆ dom (store w')
        ∧ is_Some (store w' !! "pikachu").
Proof.
  destruct (rounds codeUnitCompare
              [(Submit, answering pikachu); (LoadMore, quiet)]
              (page "25" "" "")) as [w'|] eqn:H; [|by vm_compute in H].
  exists w'. split; [done|]. split.
  - exact (cache_only_grows _ _ _ _ H).
  - vm_compute in H. injection H as <-. by eexists.
Defined.

Lemma take_plus {A} (l : list A) c k :
  take (c + k) l = take c l ++ take k (drop c l).
Proof.
  revert l. induction c as [|c IH]; intros [|x l]; simpl; try done.
  - by destruct k.
  - by rewrite IH.
Qed.

Lemma catalogPage_next lim c i (cat : list NamedRef) :
  (c ≤ length cat)%nat →
  catalogPage lim ((c + lim) `min` length cat) i cat
  = catalogPage lim c (S i) cat.
Proof.
  intros Hc. unfold catalogPage.
  destruct (le_lt_dec (c + lim) (length cat)) as [Hle|Hgt].
  - rewrite Nat.min_l by done. f_equal. f_equal. lia.
  - rewrite Nat.min_r by lia. by rewrite !drop_ge by lia.
Qed.

Lemma catalogPages_tile lim c k (cat : list NamedRef) :
  concat ((λ i, catalogPage lim c i cat) <$> seq 0 k)
  = take (k * lim) (drop c cat).
Proof.
  induction k as [|k IH]; [done|].
  rewrite seq_S, fmap_app, concat_app, IH. simpl. rewrite app_nil_r.
  unfold catalogPage. rewrite <- drop_drop.
  replace (lim + k * lim)%nat with (k * lim + lim)%nat by lia.
  by rewrite take_plus.
Qed.

Lemma take_to_cursor (l : list NamedRef) c k n :
  length l = (n - c)%nat → (c ≤ n)%nat →
  take k l = take ((c + k) `min` n - c) l.
Proof.
  intros Hl Hc. destruct (le_lt_dec (c + k) n) as [Hle|Hgt].
  - f_equal. lia.
  - replace ((c + k) `min` n - c)%nat with (length l) by lia.
    rewrite firstn_all. apply take_ge. lia.
Qed.

Section Paging.
Variable localeCompare : string → string → Z.

Lemma typeRound_stored env first w w' :
  mode (state w) = type_mode → typeCatalog (state w) ≠ [] →
  loadMorePage localeCompare env first w = Some w' →
  state w' = (takeSlice (state w)).2.
Proof.
  intros Hmode Hne H.
  apply loadMorePage_inv in H as (out & w1 & Hb & -> & _).
  destruct (beginRound_inv first w) as (Hs0 & _).
  unfold pageBatch in Hb. rewrite Hs0, Hmode in Hb.
  apply typeRound_inv in Hb as (_ & Hb). rewrite Hs0 in Hb.
  destruct (typeCatalog (state w)); [done|].
  by destruct Hb as (_ & b & _ & _ & ->).
Qed.

Lemma type_round_pool env first w w' :
  mode (state w) = type_mode → typeCatalog (state w) ≠ [] →
  loadMorePage localeCompare env first w = Some w' →
  ∃ p batch,
    Pool.run (Pool.fetchManyDetails (ref_name <$> catalogSlice (state w))
                                    (store w)) (poolEvents env) = Some p
    ∧ Pool.resolved p = Some batch
    ∧ roundOutcome env first w = Some (Returned batch)
    ∧ (Pool.returned p).*1 ≡ₚ ref_name <$> catalogSlice (state w)
    ∧ batch ≡ₚ Pool.successes p
    ∧ store w' = Pool.cache p
    ∧ requests w' = requests w ++ Pool.sent p.
Proof.
  intros Hmode Hne H.
  apply loadMorePage_inv in H as (out & w1 & Hb & _ & Hst & Hrq & _).
  unfold roundOutcome. rewrite Hb. simpl.
  destruct (beginRound_inv first w) as (Hs0 & Hc0 & Hr0 & _).
  unfold pageBatch in Hb. rewrite Hs0, Hmode in Hb.
  unfold typeRound in Hb. rewrite Hs0 in Hb.
  destruct (typeCatalog (state w)) as [|r cat] eqn:Hcat; [done|].
  cbn [length Nat.eqb] in Hb.
  destruct (awaitManyDetails _ _ _) as [[batch w2]|] eqn:Haw; [|done].
  simplify_eq/=.
  apply awaitManyDetails_inv in Haw
    as (_ & _ & _ & p & Hrun & Hres & Hstore & Hreq & _).
  simpl in *. rewrite Hs0, Hc0 in Hrun. rewrite Hr0 in Hreq.
  assert (Pool.Inv (ref_name <$> catalogSlice (state w)) p) as HI
    by eauto using PoolFacts.run_inv, PoolFacts.fetchManyDetails_inv.
  destruct (PoolRuns.resolved_batch _ _ _ HI Hres) as (Hperm & Hnames & _).
  exists p, batch. split_and!; try done; congruence.
Qed.

(** X10. Paging through a stored catalog, one load-more round after
    another, never skips and never repeats a member.  After k rounds from
    cursor c the cursor stands at min (c + k * limit, catalog length), the
    catalog is unchanged, and [hasMore] tells whether the cursor is short
    of the end.  Round i hands to [fetchManyDetails] the names of page i,
    the members from c + i * limit on, at most [limit] of them: each of
    these names gets exactly one [fetchDetailSafely] call, the batch of
    the round is the one that pool run resolved with, and the requests
    and cache writes of the round are those of that run.  The pages of
    the k rounds, in order, are exactly the members between the old
    cursor and the new one. *)
Theorem type_paging_covers_catalog envs w w' :
  mode (state w) = type_mode →
  typeCatalog (state w) ≠ [] →
  (typeCursor (state w) ≤ length (typeCatalog (state w)))%nat →
  rounds localeCompare (pair LoadMore <$> envs) w = Some w' →
  typeCatalog (state w') = typeCatalog (state w)
  ∧ typeCursor (state w')
    = (typeCursor (state w) + length envs * limit (state w))%nat
        `min` length (typeCatalog (state w))
  ∧ (envs ≠ [] →
     hasMore (state w')
     = (typeCursor (state w') <? length (typeCatalog (state w)))%nat)
  ∧ (∀ i env, envs !! i = Some env →
     ∃ wi wi' p batch,
       rounds localeCompare (pair LoadMore <$> take i envs) w = Some wi
       ∧ loadMorePage localeCompare env false wi = Some wi'
       ∧ Pool.run
           (Pool.fetchManyDetails
              (ref_name <$> catalogPage (limit (state w))
                              (typeCursor (state w)) i
                              (typeCatalog (state w)))
              (store wi))
           (poolEvents env) = Some p
       ∧ Pool.resolved p = Some batch
       ∧ roundOutcome env false wi = Some (Returned batch)
       ∧ (Pool.returned p).*1
         ≡ₚ ref_name <$> catalogPage (limit (state w))
                           (typeCursor (state w)) i (typeCatalog (state w))
       ∧ batch ≡ₚ Pool.successes p
       ∧ store wi' = Pool.cache p
       ∧ requests wi' = requests wi ++ Pool.sent p)
  ∧ concat ((λ i, catalogPage (limit (state w)) (typeCursor (state w)) i
                    (typeCatalog (state w)))
              <$> seq 0 (length envs))
    = take (typeCursor (state w') - typeCursor (state w))
           (drop (typeCursor (state w)) (typeCatalog (state w))).
Proof.
  intros Hmode Hne Hle Hrounds.
  assert (typeCatalog (state w') = typeCatalog (state w)
          ∧ typeCursor (state w')
            = (typeCursor (state w) + length envs * limit (state w))%nat
                `min` length (typeCatalog (state w))
          ∧ (envs ≠ [] →
             hasMore (state w')
             = (typeCursor (state w') <? length (typeCatalog (state w)))%nat))
    as (Hcat & Hcur & Hmore).
  { split_and!.
    - revert w Hmode Hne Hle Hrounds.
      induction envs as [|env envs IH]; intros w Hmode Hne Hle Hrounds;
        simpl in Hrounds; [by simplify_eq|].
      destruct (loadMorePage localeCompare env false w) as [w1|] eqn:Hl;
        [|done].
      pose proof (loadMorePage_keeps _ _ _ _ _ Hl) as (Hm1 & _).
      pose proof (typeRound_stored _ _ _ _ Hmode Hne Hl) as Hst.
      pose proof (catalogSlice_length (state w)) as [_ Hlen].
      rewrite (IH w1); rewrite ?Hst; simpl; try done; try congruence; lia.
    - revert w Hmode Hne Hle Hrounds.
      induction envs as [|env envs IH]; intros w Hmode Hne Hle Hrounds;
        simpl in Hrounds.
      + simplify_eq. simpl. lia.
      + destruct (loadMorePage localeCompare env false w) as [w1|] eqn:Hl;
          [|done].
        pose proof (loadMorePage_keeps _ _ _ _ _ Hl) as (Hm1 & Hlim & _).
        pose proof (typeRound_stored _ _ _ _ Hmode Hne Hl) as Hst.
        pose proof (catalogSlice_length (state w)) as [_ Hlen].
        assert (length (catalogSlice (state w))
                = limit (state w)
                    `min` (length (typeCatalog (state w))
                           - typeCursor (state w)))%nat as Hsl.
        { unfold catalogSlice. by rewrite length_take, length_drop. }
        rewrite (IH w1); rewrite ?Hst; simpl; try done; try congruence; lia.
    - intros Hnil. revert w Hmode Hne Hle Hrounds.
      induction envs as [|env envs IH]; intros w Hmode Hne Hle Hrounds;
        simpl in Hrounds; [done|].
      destruct (loadMorePage localeCompare env false w) as [w1|] eqn:Hl;
        [|done].
      pose proof (loadMorePage_keeps _ _ _ _ _ Hl) as (Hm1 & _).
      pose proof (typeRound_stored _ _ _ _ Hmode Hne Hl) as Hst.
      pose proof (catalogSlice_length (state w)) as [_ Hlen].
      destruct envs as [|env2 envs].
      + simpl in Hrounds. simplify_eq. by rewrite Hst.
      + assert (typeCatalog (state w1) = typeCatalog (state w)) as Hcat
          by (by rewrite Hst).
        rewrite <- Hcat. apply IH; rewrite ?Hst; simpl; try done;
          try congruence; lia. }
  split; [done|]. split; [done|]. split; [done|]. split.
  - clear Hcat Hcur Hmore. revert w Hmode Hne Hle Hrounds.
    induction envs as [|env0 envs IH]; intros w Hmode Hne Hle Hrounds i env Hi;
      [done|].
    simpl in Hrounds.
    destruct (loadMorePage localeCompare env0 false w) as [w1|] eqn:Hl;
      [|done].
    destruct i as [|i].
    + simpl in Hi. simplify_eq.
      destruct (type_round_pool _ _ _ _ Hmode Hne Hl)
        as (p & batch & Hrun & Hres & Hout & Hnames & Hperm & Hstore & Hreq).
      assert (catalogPage (limit (state w)) (typeCursor (state w)) 0
                          (typeCatalog (state w))
              = catalogSlice (state w)) as Hpage.
      { unfold catalogPage, catalogSlice. by rewrite Nat.add_0_r. }
      rewrite Hpage. by exists w, w1, p, batch.
    + simpl in Hi.
      pose proof (loadMorePage_keeps _ _ _ _ _ Hl) as (Hm1 & Hlim & _).
      pose proof (typeRound_stored _ _ _ _ Hmode Hne Hl) as Hst.
      pose proof (catalogSlice_length (state w)) as [_ Hlen].
      assert (typeCatalog (state w1) = typeCatalog (state w)) as Hcat1
        by (by rewrite Hst).
      assert (typeCursor (state w1)
              = (typeCursor (state w) + limit (state w))
                  `min` length (typeCatalog (state w)))%nat as Hcur1.
      { rewrite Hst. simpl. unfold catalogSlice.
        rewrite length_take, length_drop. lia. }
      destruct (IH w1) with (i := i) (env := env)
        as (wi & wi' & p & batch & Hpre & Hround & Hrest);
        [congruence|congruence|rewrite Hcat1, Hcur1; lia|done|done|].
      rewrite Hlim, Hcat1, Hcur1, catalogPage_next in Hrest by done.
      exists wi, wi', p, batch. split; [|done].
      cbn [take fmap list_fmap rounds act]. by rewrite Hl.
  - rewrite catalogPages_tile, Hcur.
    apply take_to_cursor; [by rewrite length_drop|done].
Qed.

End Paging.

Lemma type_paging_covers_catalog_witness :
  ∃ w1 w2,
    runQueryFromControls codeUnitCompare crowdFirst (page "" "normal" "")
    = Some w1
    ∧ rounds codeUnitCompare (pair LoadMore <$> [crowdRest]) w1 = Some w2
    ∧ typeCursor (state w1) = 24%nat
    ∧ typeCursor (state w2) = 25%nat
    ∧ hasMore (state w2) = false.
Proof.
  destruct (runQueryFromControls codeUnitCompare crowdFirst
                                 (page "" "normal" "")) as [w1|] eqn:H1;
    [|by vm_compute in H1].
  destruct (rounds codeUnitCompare (pair LoadMore <$> [crowdRest]) w1)
    as [w2|] eqn:H2;
    [|vm_compute in H1; injection H1 as <-; by vm_compute in H2].
  assert (state w1
          = mkState type_mode 0 24 true "" "normal" "id-asc" crowd 24) as Hst
    by (vm_compute in H1; by injection H1 as <-).
  destruct (type_paging_covers_catalog codeUnitCompare [crowdRest] w1 w2)
    as (_ & Hcur & Hmore & _);
    [by rewrite Hst|by rewrite Hst|rewrite Hst; simpl; lia|done|].
  exists w1, w2. rewrite Hst in Hcur, Hmore.
  assert (typeCursor (state w2) = 25%nat) as Hc2
    by (rewrite Hcur; by vm_compute).
  split; [reflexivity|]. split; [exact H2|]. split; [by rewrite Hst|].
  split; [exact Hc2|].
  rewrite (Hmore ltac:(discriminate)), Hc2. by vm_compute.
Defined.

Section ListPaging.
Variable localeCompare : string → string → Z.

Lemma list_round_sent env first w w' :
  mode (state w) = list_mode → is_Some (listAnswer env) →
  loadMorePage localeCompare env first w = Some w' →
  offset (state w') = (offset (state w) + limit (state w))%nat
  ∧ filter (λ r, is_ReqList r = true) (requests w')
    = filter (λ r, is_ReqList r = true) (requests w)
      ++ [ReqList (limit (state w)) (offset (state w))].
Proof.
  intros Hmode [body Hbody] H.
  apply loadMorePage_inv in H as (out & w1 & Hb & -> & _ & -> & _).
  destruct (beginRound_inv first w) as (Hs0 & _ & Hr0 & _).
  unfold pageBatch in Hb. rewrite Hs0, Hmode in Hb.
  unfold listRound, fetchListPage in Hb. rewrite Hs0, Hbody in Hb.
  destruct (awaitManyDetails _ _ _) as [[batch w2]|] eqn:Haw; [|done].
  simplify_eq/=.
  apply awaitManyDetails_frame in Haw as (Hst & _ & _ & sent & Hreq & Hsent).
  rewrite Hst, Hreq. simpl. rewrite Hs0, Hr0. split; [done|].
  assert (filter (λ r, is_ReqList r = true) sent = []) as Hnone.
  { clear -Hsent. induction Hsent as [|r l Hr _ IH]; [done|].
    rewrite filter_cons. case_decide; [congruence|done]. }
  by rewrite !filter_app, Hnone, app_nil_r.
Qed.

Lemma listingRun_S lim off k :
  listingRun lim off (S k) = ReqList lim off :: listingRun lim (off + lim) k.
Proof.
  unfold listingRun. simpl. rewrite Nat.add_0_r. f_equal.
  rewrite <- fmap_S_seq, <- list_fmap_compose. apply list_fmap_ext.
  intros _ i _. simpl. f_equal. lia.
Qed.

(** X11. In list mode, k load-more rounds that run one after another,
    each finished before the next one starts, and whose listing requests
    succeed, send exactly k listing requests, for the offsets off,
    off + limit, ..., off + (k-1) * limit in that order, always with the
    same limit, and leave the offset at off + k * limit.  The rounds must
    not overlap: a round reads the offset before it awaits its listing
    and advances it afterwards (lines 107-108), and [rounds] runs each
    round to its end before the next. *)
Theorem list_paging_requests envs w w' :
  mode (state w) = list_mode →
  Forall (λ env, is_Some (listAnswer env)) envs →
  rounds localeCompare (pair LoadMore <$> envs) w = Some w' →
  offset (state w')
  = (offset (state w) + length envs * limit (state w))%nat
  ∧ filter (λ r, is_ReqList r = true) (requests w')
    = filter (λ r, is_ReqList r = true) (requests w)
      ++ listingRun (limit (state w)) (offset (state w)) (length envs).
Proof.
  intros Hmode Hall. revert w Hmode.
  induction Hall as [|env envs Henv _ IH]; intros w Hmode Hrounds;
    simpl in Hrounds.
  - simplify_eq. simpl. split; [lia|]. by rewrite app_nil_r.
  - destruct (loadMorePage localeCompare env false w) as [w1|] eqn:Hl;
      [|done].
    pose proof (loadMorePage_keeps _ _ _ _ _ Hl) as (Hm1 & Hlim & _).
    destruct (list_round_sent _ _ _ _ Hmode Henv Hl) as (Hoff & Hreq).
    destruct (IH w1) as (-> & ->); [congruence|done|].
    rewrite Hoff, Hlim, Hreq. cbn [length].
    rewrite listingRun_S, <- app_assoc. split; [lia|done].
Qed.

End ListPaging.

Lemma list_paging_requests_witness :
  ∃ w', rounds codeUnitCompare (pair LoadMore <$> [onePikachu; noneLeft])
               (page "" "" "") = Some w'
        ∧ offset (state w') = 48%nat
        ∧ filter (λ r, is_ReqList r = true) (requests w')
          = [ReqList 24 0; ReqList 24 24].
Proof.
  destruct (rounds codeUnitCompare (pair LoadMore <$> [onePikachu; noneLeft])
                   (page "" "" "")) as [w'|] eqn:H; [|by vm_compute in H].
  exists w'. split; [done|].
  destruct (list_paging_requests codeUnitCompare [onePikachu; noneLeft]
              (page "" "" "") w' eq_refl) as (Hoff & Hreq);
    [by repeat constructor|done|].
  by rewrite Hoff, Hreq.
Defined.

Section SearchExtras.
Variable localeCompare : string → string → Z.

Lemma loadMorePage_controls env first w w' :
  loadMorePage localeCompare env first w = Some w' →
  q_value (doc w') = q_value (doc w)
  ∧ typeFilter_value (doc w') = typeFilter_value (doc w)
  ∧ sortBy_value (doc w') = sortBy_value (doc w).
Proof.
  intros H. apply loadMorePage_inv in H as (out & w1 & Hb & _ & _ & _ & ->).
  apply pageBatch_frame in Hb as (_ & _ & Hq & Ht & Hs & _).
  destruct (beginRound_doc first w) as (_ & _ & Hq0 & Ht0 & Hs0).
  destruct out as [batch|]; simpl.
  - destruct (renderRound_doc localeCompare first batch w1)
      as (_ & _ & _ & _ & _ & -> & -> & -> & _).
    by rewrite Hq, Ht, Hs, Hq0, Ht0, Hs0.
  - by rewrite Hq, Ht, Hs, Hq0, Ht0, Hs0.
Qed.

Lemma search_round_fetch env first w w' :
  mode (state w) = search_mode →
  loadMorePage localeCompare env first w = Some w' →
  store w'
  = (fetchDetailSafely (detailAnswer env) (currentQ (state w)) (store w)).1.2
  ∧ requests w'
    = requests w
      ++ (fetchDetailSafely (detailAnswer env) (currentQ (state w))
                            (store w)).2.
Proof.
  intros Hmode H.
  apply loadMorePage_inv in H as (out & w1 & Hb & _ & -> & -> & _).
  destruct (beginRound_inv first w) as (Hs0 & Hc0 & Hr0 & _).
  unfold pageBatch in Hb. rewrite Hs0, Hmode in Hb.
  unfold searchRound in Hb. rewrite Hs0, Hc0, Hr0 in Hb.
  destruct (fetchDetailSafely _ _ _) as [[poke c] reqs].
  destruct poke as [p|];
    [destruct (JsString.truthy (currentType (state w)));
       [destruct (existsb _ (types p))|]|];
    by simplify_eq/=.
Qed.

Lemma readControls_again env w w' :
  runQueryFromControls localeCompare env w = Some w' →
  state (readControls w') = state (readControls w)
  ∧ store (readControls w') = store w'
  ∧ requests (readControls w') = requests w'.
Proof.
  intros H. unfold runQueryFromControls in H.
  pose proof (loadMorePage_keeps _ _ _ _ _ H) as (_ & Hlim & _).
  apply loadMorePage_controls in H as (Hq & Ht & Hs).
  unfold readControls in *. simpl in *. by rewrite Hq, Ht, Hs, Hlim.
Qed.

(** X12. A search that found its detail is free the second time: when
    the same controls are submitted again, the lookup returns the same
    detail from the cache, no request is sent and the cache is left as
    it was. *)
Theorem repeated_search_is_cached env1 env2 w w1 w2 d :
  mode (state (readControls w)) = search_mode →
  (fetchDetailSafely (detailAnswer env1) (currentQ (state (readControls w)))
                     (store w)).1.1 = Some d →
  runQueryFromControls localeCompare env1 w = Some w1 →
  runQueryFromControls localeCompare env2 w1 = Some w2 →
  fetchDetailSafely (detailAnswer env2) (currentQ (state (readControls w1)))
                    (store w1)
  = (Some d, store w1, [])
  ∧ requests w2 = requests w1
  ∧ store w2 = store w1.
Proof.
  intros Hmode Hd H1 H2.
  destruct (readControls_again _ _ _ H1) as (Hst & Hc1 & Hr1).
  unfold runQueryFromControls in H1, H2.
  destruct (search_round_fetch _ _ _ _ Hmode H1) as (Hstore1 & _).
  change (store (readControls w)) with (store w) in Hstore1.
  assert (store w1 !! cacheKey (currentQ (state (readControls w))) = Some d)
    as Hhit.
  { rewrite Hstore1. rewrite fetchDetailSafely_split in Hd |- *.
    destruct (store w !! cacheKey _) as [d0|] eqn:Hc;
      cbn [fst snd] in Hd |- *.
    - congruence.
    - destruct (detailAnswer env1) as [data|];
        cbn [fst snd fetchDetailSafely_settle] in Hd |- *; [|done].
      injection Hd as ->. apply cacheStore_lookup. }
  assert (fetchDetailSafely (detailAnswer env2)
            (currentQ (state (readControls w1))) (store w1)
          = (Some d, store w1, [])) as Hfetch.
  { rewrite Hst. by apply fetchDetailSafely_hit. }
  split; [done|].
  assert (mode (state (readControls w1)) = search_mode) as Hmode1
    by (by rewrite Hst).
  destruct (search_round_fetch _ _ _ _ Hmode1 H2) as (Hstore2 & Hreq2).
  change (store (readControls w1)) with (store w1) in Hstore2, Hreq2.
  change (requests (readControls w1)) with (requests w1) in Hreq2.
  rewrite Hfetch in Hstore2, Hreq2. cbn [fst snd] in Hstore2, Hreq2.
  by rewrite Hreq2, Hstore2, app_nil_r.
Qed.

(** X13. The search text and the category that a submission stores are
    already in the form of a cache key, so in search mode the round looks
    up, and on a miss requests, exactly the lowercased trimmed text of
    the search box; on a hit it requests nothing. *)
Theorem search_requests_submitted_text env w w' :
  let q := JsString.toLowerCase (JsString.trim (q_value (doc w))) in
  cacheKey (currentQ (state (readControls w))) = q
  ∧ cacheKey (currentType (state (readControls w)))
    = JsString.toLowerCase (JsString.trim (typeFilter_value (doc w)))
  ∧ (mode (state (readControls w)) = search_mode →
     runQueryFromControls localeCompare env w = Some w' →
     requests w'
     = requests w
       ++ match store w !! q with
          | Some _ => []
          | None => [ReqDetail q]
          end).
Proof.
  intros q.
  assert (∀ s, cacheKey (JsString.toLowerCase (JsString.trim s))
               = JsString.toLowerCase (JsString.trim s)) as Hkey.
  { intros s. unfold cacheKey.
    by rewrite JsStringFacts.toLowerCase_idemp,
      <- JsStringFacts.toLowerCase_trim, JsStringFacts.trim_idemp. }
  assert (currentQ (state (readControls w)) = q) as Hq.
  { unfold readControls, q. simpl. by rewrite JsStringFacts.or_else_empty. }
  split_and!.
  - rewrite Hq. apply Hkey.
  - unfold readControls. simpl. rewrite JsStringFacts.or_else_empty.
    apply Hkey.
  - intros Hmode H. unfold runQueryFromControls in H.
    destruct (search_round_fetch _ _ _ _ Hmode H) as (_ & ->).
    change (requests (readControls w)) with (requests w).
    change (store (readControls w)) with (store w).
    rewrite Hq. unfold fetchDetailSafely, q. rewrite !Hkey.
    destruct (store w !! _); [done|].
    by destruct (fetchDetailSafely_settle _ _ _).
Qed.

End SearchExtras.

Lemma repeated_search_is_cached_witness :
  ∃ w1 w2,
    runQueryFromControls codeUnitCompare (answering pikachu)
                         (page " Pikachu" "" "") = Some w1
    ∧ runQueryFromControls codeUnitCompare quiet w1 = Some w2
    ∧ requests w1 = [ReqDetail "pikachu"]
    ∧ requests w2 = requests w1
    ∧ grid (doc w2) = [Card pikachu].
Proof.
  destruct (runQueryFromControls codeUnitCompare (answering pikachu)
                                 (page " Pikachu" "" "")) as [w1|] eqn:H1;
    [|by vm_compute in H1].
  destruct (runQueryFromControls codeUnitCompare quiet w1) as [w2|] eqn:H2;
    [|vm_compute in H1; injection H1 as <-; by vm_compute in H2].
  destruct (repeated_search_is_cached codeUnitCompare (answering pikachu)
              quiet (page " Pikachu" "" "") w1 w2 pikachu
              eq_refl eq_refl H1 H2) as (_ & Hreq & _).
  exists w1, w2. split_and!; [done|done| |done|].
  - vm_compute in H1. by injection H1 as <-.
  - vm_compute in H1. injection H1 as <-. vm_compute in H2.
    by injection H2 as <-.
Defined.

Lemma search_requests_submitted_text_witness :
  ∃ w', runQueryFromControls codeUnitCompare (answering pikachu)
                             (page "  PIKAchu " "" "") = Some w'
        ∧ requests w' = [ReqDetail "pikachu"].
Proof.
  destruct (runQueryFromControls codeUnitCompare (answering pikachu)
                                 (page "  PIKAchu " "" "")) as [w'|] eqn:H;
    [|by vm_compute in H].
  exists w'. split; [done|].
  destruct (search_requests_submitted_text codeUnitCompare
              (answering pikachu) (page "  PIKAchu " "" "") w')
    as (_ & _ & Hreq).
  by rewrite (Hreq eq_refl H).
Defined.


(* ================================================================== *)
(** ** Sorting, once more *)
(* ================================================================== *)

Lemma sortBatch_eq lc (batch : list Detail) sortBy :
  sortBatch lc batch sortBy
  = match comparator lc sortBy with
    | Some cmp => Array_sort cmp batch
    | None => batch
    end.
Proof.
  unfold sortBatch, sortPokemons, spread, sort_in_place.
  rewrite lookup_singleton_eq. simpl.
  destruct (comparator _ _); simpl.
  - by rewrite alter_insert_eq, lookup_insert_eq.
  - by rewrite lookup_insert_eq.
Qed.

Lemma comparator_consistent lc sortBy cmp :
  Consistent lc → comparator lc sortBy = Some cmp → Consistent cmp.
Proof.
  intros Hlc Hcmp. pose proof (comparator_cases lc sortBy) as H.
  rewrite Hcmp in H.
  destruct H as [[_ ->]|[[_ ->]|[[_ ->]|[_ ->]]]];
    auto using by_id_asc_consistent, by_id_desc_consistent,
      by_name_asc_consistent, by_name_desc_consistent.
Qed.

Section Stability.
Context {A : Type} (cmp : A → A → Z).
Hypothesis Hcmp : Consistent cmp.

Lemma tie_swap a b : cmp a b = 0%Z → cmp b a = 0%Z.
Proof.
  intros H. destruct (Z.lt_trichotomy (cmp b a) 0) as [Hlt|[Heq|Hgt]];
    [|done|].
  - apply (consistent_swap cmp Hcmp) in Hlt. lia.
  - apply (consistent_swap cmp Hcmp) in Hgt. lia.
Qed.

(** What comes strictly before [x] is not tied with anything tied with
    [x]. *)
Lemma before_not_tied z x y : cmp z x = 0%Z → (cmp y x < 0)%Z → cmp z y ≠ 0%Z.
Proof.
  intros Hzx Hyx Hzy.
  assert (cmp x y ≤ 0)%Z as Hxy.
  { apply (consistent_trans cmp Hcmp x z y).
    - apply tie_swap in Hzx. lia.
    - lia. }
  apply (consistent_swap cmp Hcmp) in Hyx. lia.
Qed.

Lemma insert_by_ties z x l :
  filter (λ y, cmp z y = 0%Z) (insert_by cmp x l)
  = filter (λ y, cmp z y = 0%Z) (x :: l).
Proof.
  induction l as [|y l IH]; simpl; [done|].
  destruct (cmp y x <? 0)%Z eqn:Hyx; [|done].
  apply Z.ltb_lt in Hyx.
  rewrite (filter_cons _ y), IH, !(filter_cons _ x), (filter_cons _ y).
  destruct (decide (cmp z x = 0%Z)) as [Hzx|Hzx]; [|done].
  destruct (decide (cmp z y = 0%Z)) as [Hzy|]; [|done].
  by destruct (before_not_tied z x y).
Qed.

Lemma Array_sort_ties z l :
  filter (λ y, cmp z y = 0%Z) (Array_sort cmp l)
  = filter (λ y, cmp z y = 0%Z) l.
Proof.
  induction l as [|x l IH]; simpl; [done|].
  fold (Array_sort cmp l). by rewrite insert_by_ties, !filter_cons, IH.
Qed.

Lemma Array_sort_twice l :
  Array_sort cmp (Array_sort cmp l) = Array_sort cmp l.
Proof.
  apply Array_sort_id; [done|].
  apply StronglySorted_Sorted. by apply Array_sort_sorted.
Qed.

End Stability.

Section SortExtras.
Variable localeCompare : string → string → Z.
Hypothesis localeCompare_consistent : Consistent localeCompare.

(** X14. Sorting a batch is stable: under each of the four keys the
    details that tie with a given detail, those of equal id or of names
    that compare equal, come out in the order they went in. *)
Theorem sortBatch_stable (batch : list Detail) (sortBy : string)
    (cmp : Detail → Detail → Z) (z : Detail) :
  comparator localeCompare sortBy = Some cmp →
  filter (λ y, cmp z y = 0%Z) (sortBatch localeCompare batch sortBy)
  = filter (λ y, cmp z y = 0%Z) batch.
Proof.
  intros Hcmp. rewrite sortBatch_eq, Hcmp. apply Array_sort_ties.
  by eapply comparator_consistent.
Qed.

(** X15. Sorting a batch that was already sorted by the same key, known
    or not, gives it back unchanged, and sorting never changes how many
    details there are. *)
Theorem sortBatch_idempotent (batch : list Detail) (sortBy : string) :
  sortBatch localeCompare (sortBatch localeCompare batch sortBy) sortBy
  = sortBatch localeCompare batch sortBy
  ∧ length (sortBatch localeCompare batch sortBy) = length batch.
Proof.
  rewrite !sortBatch_eq.
  destruct (comparator localeCompare sortBy) as [cmp|] eqn:Hcmp; [|done].
  split.
  - apply Array_sort_twice. by eapply comparator_consistent.
  - by rewrite Array_sort_perm.
Qed.

End SortExtras.

Lemma sortBatch_stable_witness :
  comparator codeUnitCompare "id-asc" = Some by_id_asc
  ∧ sortBatch codeUnitCompare twins "id-asc"
    = [mkDetail 1 "c" []; mkDetail 5 "b" []; mkDetail 5 "a" []]
  ∧ filter (λ y, by_id_asc (mkDetail 5 "b" []) y = 0%Z)
           (sortBatch codeUnitCompare twins "id-asc")
    = [mkDetail 5 "b" []; mkDetail 5 "a" []].
Proof.
  split; [done|]. split; [done|].
  by rewrite (sortBatch_stable codeUnitCompare codeUnitCompare_consistent
                twins "id-asc" by_id_asc _ eq_refl).
Defined.

Lemma sortBatch_idempotent_witness :
  sortBatch codeUnitCompare (sortBatch codeUnitCompare twins "name-desc")
            "name-desc"
  = sortBatch codeUnitCompare twins "name-desc".
Proof.
  exact (proj1 (sortBatch_idempotent codeUnitCompare
                  codeUnitCompare_consistent twins "name-desc")).
Defined.

(* ================================================================== *)
(** ** Cache keys *)
(* ================================================================== *)

Module KeyFacts.
Import JsString JsStringFacts.

Lemma toLowerCase_app s t :
  toLowerCase (s +:+ t) = toLowerCase s +:+ toLowerCase t.
Proof. induction s as [|c s IH]; simpl; [done|]. by rewrite IH. Qed.

Lemma blank_toLowerCase s : blank s → blank (toLowerCase s).
Proof.
  unfold blank, allChars. induction s as [|c s IH]; simpl; [done|].
  intros [Hc Hs]%andb_true_iff. by rewrite isWhiteSpace_toLowerChar, Hc, IH.
Qed.

Lemma trimStart_blank_app ws s : blank ws → trimStart (ws +:+ s) = trimStart s.
Proof.
  unfold blank, allChars. induction ws as [|c ws IH]; simpl; [done|].
  intros [-> Hs]%andb_true_iff. by apply IH.
Qed.

Lemma trimEnd_blank ws : blank ws → trimEnd ws = "".
Proof.
  unfold blank, allChars. induction ws as [|c ws IH]; simpl; [done|].
  intros [-> Hs]%andb_true_iff. by rewrite IH.
Qed.

Lemma trimEnd_app_blank s ws : blank ws → trimEnd (s +:+ ws) = trimEnd s.
Proof.
  intros Hws. induction s as [|c s IH]; simpl; [by apply trimEnd_blank|].
  by rewrite IH.
Qed.

Lemma trimStart_app s t :
  trimStart (s +:+ t)
  = match trimStart s with
    | EmptyString => trimStart t
    | String c r => String c r +:+ t
    end.
Proof.
  induction s as [|c s IH]; simpl; [done|].
  by destruct (isWhiteSpace c).
Qed.

Lemma trimStart_blank ws : blank ws → trimStart ws = "".
Proof.
  unfold blank, allChars. induction ws as [|c ws IH]; simpl; [done|].
  intros [-> Hs]%andb_true_iff. by apply IH.
Qed.

Lemma trim_pad ws1 s ws2 :
  blank ws1 → blank ws2 → trim (ws1 +:+ s +:+ ws2) = trim s.
Proof.
  intros H1 H2. unfold trim. rewrite trimStart_blank_app by done.
  rewrite trimStart_app. destruct (trimStart s) as [|c r] eqn:Hs.
  - by rewrite trimStart_blank.
  - by apply trimEnd_app_blank.
Qed.

End KeyFacts.

(** X16. The cache key ignores letter case and surrounding blanks: two
    identifiers that lowercase to the same string give the same key,
    whatever blanks are put before and after either, and a key is its own
    key. *)
Theorem cacheKey_insensitive (ws1 ws2 s s' : string) :
  blank ws1 → blank ws2 →
  JsString.toLowerCase s = JsString.toLowerCase s' →
  cacheKey (ws1 +:+ s +:+ ws2) = cacheKey s'
  ∧ cacheKey (cacheKey s) = cacheKey s.
Proof.
  intros H1 H2 Hs. split; [|apply cacheKey_idemp].
  unfold cacheKey. rewrite !KeyFacts.toLowerCase_app, Hs.
  apply KeyFacts.trim_pad; by apply KeyFacts.blank_toLowerCase.
Qed.

Lemma cacheKey_insensitive_witness :
  cacheKey ("  " +:+ "PikaChu" +:+ " ") = cacheKey "pikachu".
Proof.
  exact (proj1 (cacheKey_insensitive "  " " " "PikaChu" "pikachu"
                  eq_refl eq_refl eq_refl)).
Defined.

(* ================================================================== *)
(** ** The type filter *)
(* ================================================================== *)

Section TypeOptions.
Variable localeCompare : string → string → Z.
Hypothesis localeCompare_consistent : Consistent localeCompare.

(** X17. The options offered by the type filter are the lowercased names
    of the types the API lists, without [unknown] and [shadow] however
    the API spells their case, each as often as the API lists it, and in
    the order of [localeCompare]; a body without [results] gives no
    option. *)
Theorem typeOptions_spec (data : TypesJSON) :
  let names := default [] (types_results data) in
  typeOptions localeCompare data
    ≡ₚ filter (λ t, t ∉ EXCLUDE) (JsString.toLowerCase <$> names)
  ∧ StronglySorted (λ a b, (localeCompare a b ≤ 0)%Z)
                   (typeOptions localeCompare data)
  ∧ (∀ t, t ∈ typeOptions localeCompare data ↔
          t ≠ "unknown" ∧ t ≠ "shadow"
          ∧ ∃ n, n ∈ names ∧ t = JsString.toLowerCase n)
  ∧ (∀ t, t ∈ typeOptions localeCompare data → JsString.toLowerCase t = t)
  ∧ (types_results data = None → typeOptions localeCompare data = []).
Proof.
  intros names.
  assert (typeOptions localeCompare data
            ≡ₚ filter (λ t, t ∉ EXCLUDE) (JsString.toLowerCase <$> names))
    as Hperm by apply Array_sort_perm.
  assert (∀ t, t ∈ typeOptions localeCompare data ↔
          t ≠ "unknown" ∧ t ≠ "shadow"
          ∧ ∃ n, n ∈ names ∧ t = JsString.toLowerCase n) as Hin.
  { intros t. rewrite Hperm, list_elem_of_filter, list_elem_of_fmap.
    unfold EXCLUDE. rewrite !not_elem_of_cons. split.
    - intros ((? & ? & _) & n & -> & ?). split_and!; try done. by exists n.
    - intros (? & ? & n & ? & ->). split; [|by exists n].
      split_and!; try done. apply not_elem_of_nil. }
  split_and!; [done| |done| |].
  - by apply (Array_sort_sorted localeCompare).
  - intros t (_ & _ & n & _ & ->)%Hin.
    apply JsStringFacts.toLowerCase_idemp.
  - unfold typeOptions. by intros ->.
Qed.

End TypeOptions.

Lemma typeOptions_spec_witness :
  typeOptions codeUnitCompare allTypes = ["electric"; "fire"; "normal"]
  ∧ StronglySorted (λ a b, (codeUnitCompare a b ≤ 0)%Z)
                   (typeOptions codeUnitCompare allTypes).
Proof.
  split; [done|].
  exact (proj1 (proj2 (typeOptions_spec codeUnitCompare
                         codeUnitCompare_consistent allTypes))).
Defined.

(* ================================================================== *)
(** ** The card: stats and id badge *)
(* ================================================================== *)

Lemma fromEntries_snoc (l : list (string * Z)) e :
  fromEntries (l ++ [e]) = <[e.1 := e.2]> (fromEntries l).
Proof. unfold fromEntries. by rewrite foldl_app. Qed.

(** Looking a name up in [fromEntries]: the value of its last entry. *)
Lemma fromEntries_lookup (stats : list (string * Z)) key :
  (fromEntries stats !! key = None ↔ key ∉ stats.*1)
  ∧ ∀ v, fromEntries stats !! key = Some v ↔
         ∃ l1 l2, stats = l1 ++ (key, v) :: l2 ∧ key ∉ l2.*1.
Proof.
  induction stats as [|[k x] stats IH] using rev_ind.
  - split.
    + split; [intros _; apply not_elem_of_nil|done].
    + intros v. split; [done|]. intros (l1 & l2 & H & _). by destruct l1.
  - destruct IH as [IHn IHs]. rewrite fromEntries_snoc. simpl.
    destruct (decide (k = key)) as [->|Hne].
    + rewrite lookup_insert_eq. split.
      * split; [done|]. intros H. destruct H.
        rewrite fmap_app. apply elem_of_app. right. apply list_elem_of_here.
      * intros v. split.
        -- intros [= ->]. exists stats, []. split; [done|].
           apply not_elem_of_nil.
        -- intros (l1 & l2 & H & Hnot).
           destruct l2 as [|e l2 _] using rev_ind.
           ++ apply app_inj_tail in H as [_ H]. congruence.
           ++ rewrite app_comm_cons, app_assoc in H.
              apply app_inj_tail in H as [_ <-].
              destruct Hnot. rewrite fmap_app. apply elem_of_app. right.
              apply list_elem_of_here.
    + rewrite lookup_insert_ne by done. split.
      * rewrite IHn, fmap_app, not_elem_of_app. simpl.
        rewrite not_elem_of_cons. split; [|by intros [? _]].
        intros ?. split; [done|]. split; [done|apply not_elem_of_nil].
      * intros v. rewrite IHs. split.
        -- intros (l1 & l2 & -> & Hnot). exists l1, (l2 ++ [(k, x)]).
           split; [by rewrite <- app_assoc|].
           rewrite fmap_app, not_elem_of_app. split; [done|].
           simpl. rewrite not_elem_of_cons. split; [done|].
           apply not_elem_of_nil.
        -- intros (l1 & l2 & H & Hnot).
           destruct l2 as [|e l2 _] using rev_ind.
           ++ apply app_inj_tail in H as [_ H]. congruence.
           ++ rewrite app_comm_cons, app_assoc in H.
              apply app_inj_tail in H as [-> <-].
              exists l1, l2. split; [done|].
              rewrite fmap_app, not_elem_of_app in Hnot. by destruct Hnot.
Qed.

(** X18. The stats list of a card always has the same six rows, in the
    fixed order and with the hyphen of a label turned into a space,
    whatever stats the detail carries.  A row shows the value of the last
    stat of its name, be it 0, and the placeholder exactly when the
    detail has no stat of that name; stats of other names show
    nowhere. *)
Theorem statLines_spec (stats : list (string * Z)) :
  (statLines stats).*1
  = ["hp"; "attack"; "defense"; "special attack"; "special defense"; "speed"]
  ∧ ∀ i key, ORDER !! i = Some key →
      ∃ shown, (statLines stats).*2 !! i = Some shown
        ∧ (shown = None ↔ key ∉ stats.*1)
        ∧ ∀ v, shown = Some v ↔
               ∃ l1 l2, stats = l1 ++ (key, v) :: l2 ∧ key ∉ l2.*1.
Proof.
  split; [done|]. intros i key Hi.
  exists (fromEntries stats !! key). split.
  - unfold statLines. rewrite <- list_fmap_compose, list_lookup_fmap, Hi.
    done.
  - apply fromEntries_lookup.
Qed.

Lemma statLines_spec_witness :
  ORDER !! 0%nat = Some "hp"
  ∧ (statLines someStats).*2
    = [Some 0%Z; None; None; None; None; Some 90%Z].
Proof.
  split; [done|].
  destruct (statLines_spec someStats) as [_ H].
  destruct (H 0%nat "hp" eq_refl) as (shown & Hshown & _).
  by vm_compute.
Defined.

Module BadgeFacts.

Lemma digit_not_zero x : (0 < x)%N → pretty_N_char x ≠ "0"%char.
Proof.
  intros Hx. unfold pretty_N_char.
  destruct x as [|p]; [lia|]. by repeat (case_match; try done).
Qed.

Lemma pretty_N_go_head x s :
  (0 < x)%N → ∃ c rest, pretty_N_go x s = String c rest ∧ c ≠ "0"%char.
Proof.
  revert s. induction (N.lt_wf_0 x) as [x _ IH]; intros s Hx.
  rewrite pretty_N_go_step by done.
  destruct (decide (x `div` 10 = 0)%N) as [Hz|Hz].
  - rewrite Hz, pretty_N_go_0. eexists _, _. split; [done|].
    apply digit_not_zero.
    assert (x < 10)%N as Hlt by (by apply N.div_small_iff in Hz).
    by rewrite N.mod_small.
  - apply IH; [by apply N.div_lt|by apply N.neq_0_lt_0].
Qed.

Lemma ofNumber_noLeadingZero n : noLeadingZero (JsString.ofNumber n).
Proof.
  unfold JsString.ofNumber, pretty, pretty_Z. destruct n as [|p|p].
  - by left.
  - right. unfold pretty, pretty_positive, pretty, pretty_N.
    rewrite decide_False by done. by apply pretty_N_go_head.
  - right. by exists "-"%char, (pretty p).
Qed.

Lemma noLeadingZero_nonempty s : noLeadingZero s → s ≠ "".
Proof. by intros [->|(c & rest & -> & _)]. Qed.

Lemma zeros_cancel a b s t :
  noLeadingZero s → noLeadingZero t →
  repeatChar a "0" +:+ s = repeatChar b "0" +:+ t → s = t.
Proof.
  intros Hs Ht. revert b. induction a as [|a IH]; intros [|b] H.
  - exact H.
  - change (s = String "0" (repeatChar b "0" +:+ t)) in H.
    destruct Hs as [->|(c & rest & -> & Hc)]; [|congruence].
    injection H as H. destruct b; [|done].
    change ("" = t) in H. by destruct (noLeadingZero_nonempty t).
  - change (String "0" (repeatChar a "0" +:+ s) = t) in H.
    destruct Ht as [->|(c & rest & -> & Hc)]; [|congruence].
    injection H as H. destruct a; [|done].
    change (s = "") in H. by destruct (noLeadingZero_nonempty s).
  - change (String "0" (repeatChar a "0" +:+ s)
            = String "0" (repeatChar b "0" +:+ t)) in H.
    injection H as H. by apply (IH b).
Qed.

Lemma repeatChar_length n c : String.length (repeatChar n c) = n.
Proof. induction n as [|n IH]; simpl; [done|]. by rewrite IH. Qed.

Lemma append_length s t :
  String.length (s +:+ t) = (String.length s + String.length t)%nat.
Proof. induction s as [|c s IH]; simpl; [done|]. by rewrite IH. Qed.

End BadgeFacts.

(** X19. For an id that is a safe integer, the id badge is a hash sign,
    then zeros up to four characters, then the printed id; it has at least
    five characters, and no two details of different such ids get the same
    badge. *)
Theorem idLabel_spec (d d' : Detail) :
  JsString.isSafeInteger (id d) = true →
  JsString.isSafeInteger (id d') = true →
  idLabel d
  = "#" +:+ repeatChar (4 - String.length (JsString.ofNumber (id d))) "0"
        +:+ JsString.ofNumber (id d)
  ∧ String.length (idLabel d)
    = S (4 `max` String.length (JsString.ofNumber (id d)))
  ∧ (idLabel d = idLabel d' → id d = id d').
Proof.
  intros _ _. split_and!.
  - done.
  - unfold idLabel, padStart.
    change (S (String.length
                 (repeatChar (4 - String.length (JsString.ofNumber (id d)))
                             "0" +:+ JsString.ofNumber (id d)))
            = S (4 `max` String.length (JsString.ofNumber (id d)))).
    rewrite BadgeFacts.append_length, BadgeFacts.repeatChar_length. lia.
  - unfold idLabel, padStart. intros H.
    change (String "#" (repeatChar (4 - String.length (JsString.ofNumber (id d)))
                                   "0" +:+ JsString.ofNumber (id d))
            = String "#" (repeatChar
                            (4 - String.length (JsString.ofNumber (id d')))
                            "0" +:+ JsString.ofNumber (id d'))) in H.
    injection H as H.
    apply BadgeFacts.zeros_cancel in H;
      [|apply BadgeFacts.ofNumber_noLeadingZero..].
    by apply (inj pretty) in H.
Qed.

Lemma idLabel_spec_witness :
  idLabel pikachu = "#0025" ∧ idLabel (mkDetail 12345 "x" []) = "#12345"
  ∧ String.length (idLabel pikachu) = 5%nat
  ∧ idLabel pikachu ≠ idLabel charmander.
Proof.
  split; [done|]. split; [done|].
  destruct (idLabel_spec pikachu charmander eq_refl eq_refl)
    as (_ & Hlen & Hinj).
  split; [exact Hlen|]. intros H. by apply Hinj in H.
Defined.

(* ================================================================== *)
(** ** Navigation links and the guard *)
(* ================================================================== *)

Module PathFacts.

Lemma splitSlash_nonempty s : splitSlash s ≠ [].
Proof.
  destruct s as [|c s]; simpl; [done|].
  destruct (Ascii.eqb c "/"); [done|]. by destruct (splitSlash s).
Qed.

Lemma joinSlash_cons seg rest :
  rest ≠ [] → joinSlash (seg :: rest) = seg +:+ "/" +:+ joinSlash rest.
Proof. by destruct rest. Qed.

Lemma joinSlash_head c seg rest :
  joinSlash (String c seg :: rest) = String c (joinSlash (seg :: rest)).
Proof. by destruct rest. Qed.

Lemma join_split s : joinSlash (splitSlash s) = s.
Proof.
  induction s as [|c s IH]; simpl; [done|].
  destruct (Ascii.eqb_spec c "/") as [->|Hc].
  - rewrite joinSlash_cons by apply splitSlash_nonempty. by rewrite IH.
  - pose proof (splitSlash_nonempty s).
    destruct (splitSlash s) as [|seg rest]; [done|].
    by rewrite joinSlash_head, IH.
Qed.

Lemma splitSlash_noSlash s : Forall noSlash (splitSlash s).
Proof.
  induction s as [|c s IH]; simpl; [by repeat constructor|].
  destruct (Ascii.eqb c "/") eqn:Hc; [by constructor|].
  pose proof (splitSlash_nonempty s).
  destruct (splitSlash s) as [|seg rest]; [done|].
  apply Forall_cons in IH as [Hseg Hrest]. constructor; [|done].
  unfold noSlash, JsString.allChars in *. simpl. by rewrite Hc, Hseg.
Qed.

Lemma splitSlash_plain s : noSlash s → splitSlash s = [s].
Proof.
  unfold noSlash, JsString.allChars. induction s as [|c s IH]; simpl; [done|].
  intros [Hc Hs]%andb_true_iff. apply negb_true_iff in Hc.
  by rewrite Hc, (IH Hs).
Qed.

Lemma splitSlash_dir dir file :
  ∃ seg rest, splitSlash (dir +:+ "/" +:+ file) = seg :: rest
    ∧ rest ≠ [] ∧ last rest = last (splitSlash file).
Proof.
  induction dir as [|c dir IH].
  - exists EmptyString, (splitSlash file).
    split; [done|]. split; [apply splitSlash_nonempty|done].
  - change (String c dir +:+ "/" +:+ file)
      with (String c (dir +:+ "/" +:+ file)).
    destruct IH as (seg & rest & Heq & Hne & Hlast).
    cbn [splitSlash]. rewrite Heq. destruct (Ascii.eqb c "/").
    + exists EmptyString, (seg :: rest). split; [done|]. split; [done|].
      rewrite <- Hlast. by destruct rest.
    + by exists (String c seg), rest.
Qed.

Lemma splitSlash_app dir file :
  last (splitSlash (dir +:+ "/" +:+ file)) = last (splitSlash file).
Proof.
  destruct (splitSlash_dir dir file) as (seg & rest & -> & Hne & <-).
  by destruct rest.
Qed.

Lemma lastSegment_file dir file :
  noSlash file → lastSegment (dir +:+ "/" +:+ file) = file.
Proof.
  intros H. unfold lastSegment.
  by rewrite splitSlash_app, (splitSlash_plain file H).
Qed.

Lemma lastSegment_plain file : noSlash file → lastSegment file = file.
Proof. intros H. unfold lastSegment. by rewrite (splitSlash_plain file H). Qed.

Lemma includes_here needle rest : includes needle (needle +:+ rest) = true.
Proof.
  assert (String.prefix needle (needle +:+ rest) = true) as H.
  { induction needle as [|c n IH]; [by destruct rest|].
    change (String c n +:+ rest) with (String c (n +:+ rest)).
    cbn [String.prefix]. destruct (ascii_dec c c); [exact IH|congruence]. }
  destruct (needle +:+ rest) as [|c s]; cbn [includes]; by rewrite H.
Qed.

Lemma includes_after needle before rest :
  includes needle (before +:+ needle +:+ rest) = true.
Proof.
  induction before as [|c b IH]; [exact (includes_here needle rest)|].
  change (String c b +:+ needle +:+ rest)
    with (String c (b +:+ needle +:+ rest)).
  cbn [includes]. rewrite IH. apply orb_true_r.
Qed.

End PathFacts.

(** X20. Splitting a path at its slashes loses nothing: joining the
    segments with slashes gives the path back, there is always at least
    one segment, and no segment contains a slash. *)
Theorem split_join_roundtrip (s : string) :
  joinSlash (splitSlash s) = s
  ∧ splitSlash s ≠ []
  ∧ Forall noSlash (splitSlash s)
  ∧ noSlash (lastSegment s).
Proof.
  split_and!.
  - apply PathFacts.join_split.
  - apply PathFacts.splitSlash_nonempty.
  - apply PathFacts.splitSlash_noSlash.
  - unfold lastSegment. pose proof (PathFacts.splitSlash_noSlash s) as H.
    destruct (last (splitSlash s)) as [seg|] eqn:Hl; [|done].
    rewrite Forall_forall in H. apply H. simpl.
    apply last_Some in Hl as [l ->]. apply elem_of_app. right.
    apply list_elem_of_here.
Qed.

(** X21. A navigation link is hidden exactly when its target and the
    current page end in the same file name; the directories before it,
    on either side, make no difference. *)
Theorem linkHidden_same_file (dir dir' file file' : string) :
  noSlash file → noSlash file' →
  (linkHidden (dir +:+ "/" +:+ file) (dir' +:+ "/" +:+ file') = true
   ↔ file = file')
  ∧ (linkHidden (dir +:+ "/" +:+ file) file' = true ↔ file = file').
Proof.
  intros Hf Hf'. unfold linkHidden.
  rewrite !PathFacts.lastSegment_file, (PathFacts.lastSegment_plain file')
    by done.
  by rewrite String.eqb_eq.
Qed.

Lemma linkHidden_same_file_witness :
  linkHidden "/pages/userHome.html" "../pages/userHome.html" = true
  ∧ linkHidden "/pages/userHome.html" "../pages/pokedex.html" = false.
Proof.
  split; [|done].
  apply (proj1 (linkHidden_same_file "/pages" "../pages" "userHome.html"
                  "userHome.html" eq_refl eq_refl)).
  done.
Defined.

(** X22. After the logout that clears the token, the guard sends the
    visitor away from every protected page, to the login page one level
    up when the path lies under [/pages/].  A visitor holding a
    non-empty token is not sent anywhere, and that is still so after the
    logout handler that only navigates, which leaves the token where it
    was. *)
Theorem logout_then_guard (storage : Storage) (pathname : string) :
  is_Some (authGuard (logout storage).1 pathname)
  ∧ (∀ before rest,
        pathname = before +:+ "/pages/" +:+ rest →
        authGuard (logout storage).1 pathname = Some "../index.html")
  ∧ (∀ token,
        storage !! "authToken" = Some token → token ≠ "" →
        authGuard storage pathname = None
        ∧ authGuard (logoutKeeping storage).1 pathname = None).
Proof.
  unfold authGuard, logout, logoutKeeping. simpl.
  rewrite lookup_delete_eq. split_and!.
  - by eexists.
  - intros before rest ->. by rewrite PathFacts.includes_after.
  - intros token -> Htok%JsStringFacts.truthy_true. by rewrite Htok.
Qed.

Lemma logout_then_guard_witness :
  authGuard loggedIn "/pages/userHome.html" = None
  ∧ authGuard (logout loggedIn).1 "/pages/userHome.html"
    = Some "../index.html"
  ∧ authGuard (logoutKeeping loggedIn).1 "/pages/userHome.html" = None.
Proof.
  destruct (logout_then_guard loggedIn "/pages/userHome.html")
    as (_ & Hout & Hin).
  destruct (Hin "abc" eq_refl) as [H1 H2]; [done|].
  split; [exact H1|]. split; [|exact H2].
  exact (Hout "" "userHome.html" eq_refl).
Defined.
